(** * hardcore_snake: the Snake tick engine and the lock puzzle check

    A shallow embedding of the two React components of the repository:
    the Snake game (the tunables, [key], [within], [randomEmptyCell],
    [start], [endGame], [accel], [tick], [validateTurn], [makeCode], the
    initializer of [best]) and the lock puzzle of [src/App.tsx] (the
    [allCorrect] test of the unlock effect and [handleSliderChange]).

    Modelling decisions.
    - Coordinates, score, tick interval and counters are JavaScript numbers
      that only ever hold small integers; they are modelled as [Z].  The
      best score is read from a string and may be NaN: it is a [jsnum].
    - The refs ([snakeRef], [foodRef], ...) and the React state cells
      ([score], [tickMs], [best], [state], ...) are the fields of one record
      [State]; setters and functional updaters are applied in program order.
    - [obstaclesRef] is a [Set<string>] of keys ["x,y"]; it is a
      [gset string] and [key] prints the two coordinates in decimal.
    - [Math.random()] reads the next value of a recorded trace [rand] of
      rationals, and the arithmetic on these values is exact.  A computation
      that needs more values than the trace holds returns [None]: the
      rejection loop of [randomEmptyCell] has no bound in the source, and
      [None] is the model of a loop that has not yet found a free cell.
      Which cell a given double names depends on the rounding of the
      product: the statements that say which cell is drawn, or which
      targets [getRandomPositions] gives, read the doubles themselves and
      multiply in binary64 ([cell_of64], [Math_floor]).
    - The frame scheduler ([step], [loop], the event listeners) decides
      *when* [tick], the countdown and [start] run; its clock arithmetic is
      not modelled.  Every call of a listener and every animation frame is
      one event of [fire]; a frame tests the phase once, at its start. *)

From Stdlib Require Import Ascii QArith Qround Qabs Lqa DecimalString DecimalPos
  DecimalZ PrimFloat SpecFloat FloatOps.
From stdpp Require Import gmap strings list.

Local Open Scope Z_scope.
#[local] Set Warnings "-clear-no-such-hyp".

(** ** Tunables (part_000, lines 6-15) *)

Definition GRID_COLS : Z := 28.
Definition GRID_ROWS : Z := 20.
Definition START_SPEED_MS : Z := 140.
Definition MIN_SPEED_MS : Z := 60.
Definition TIME_LIMIT_S : Z := 75.
Definition OBSTACLE_INTERVAL_TICKS : Z := 18.
Definition MAX_OBSTACLES : Z := 40.
Definition POISON_INTERVAL_TICKS : Z := 23.

(** ** Vectors and directions *)

Record Vec : Type := mkVec { x : Z; y : Z }.

Global Instance Vec_eq_dec : EqDecision Vec.
Proof. solve_decision. Defined.

Definition ArrowUp : Vec := mkVec 0 (-1).
Definition ArrowDown : Vec := mkVec 0 1.
Definition ArrowLeft : Vec := mkVec (-1) 0.
Definition ArrowRight : Vec := mkVec 1 0.

(** The values of the table [DIRS]: the only vectors ever stored in
    [dirRef] and [nextDirRef]. *)
Definition is_dir (v : Vec) : Prop :=
  v = ArrowUp ∨ v = ArrowDown ∨ v = ArrowLeft ∨ v = ArrowRight.

Definition opposite (v : Vec) : Vec := mkVec (- x v) (- y v).

(** [validateTurn] (lines 246-249). *)
Definition validateTurn (cur next : Vec) : Vec :=
  if (x cur =? - x next) && (y cur =? - y next) then cur else next.

(** ** JavaScript numbers that may be NaN, and their strings *)

Inductive jsnum : Type :=
| JInt (z : Z)
| JNaN.

Global Instance jsnum_eq_dec : EqDecision jsnum.
Proof. solve_decision. Defined.

(** [Math.max] on two numbers: NaN is contagious. *)
Definition Math_max (a b : jsnum) : jsnum :=
  match a, b with
  | JInt a, JInt b => JInt (Z.max a b)
  | _, _ => JNaN
  end.

(** Number-to-string conversion of an integer: decimal digits, a leading
    minus sign for negatives. *)
Definition Z_toString (z : Z) : string := NilZero.string_of_int (Z.to_int z).

(** [String(n)]. *)
Definition String_of (n : jsnum) : string :=
  match n with
  | JInt z => Z_toString z
  | JNaN => "NaN"
  end.

(** [key] (line 77): the template string [`${v.x},${v.y}`]. *)
Definition key (v : Vec) : string :=
  Z_toString (x v) +:+ "," +:+ Z_toString (y v).

(** [within] (lines 78-79). *)
Definition within (v : Vec) : bool :=
  (0 <=? x v) && (x v <? GRID_COLS) && (0 <=? y v) && (y v <? GRID_ROWS).

(** [makeCode] (lines 351-353); the second argument is ignored by the
    source as well. *)
Definition CODE_LOCKED : string := "Code non débloqué".

Definition makeCode (scoreVal elapsedSec : Z) : string :=
  if 100 <=? scoreVal then "4712" else CODE_LOCKED.

(** ** The game state *)

Inductive Reason : Type := Hit | Timeout.

Inductive GameState : Type :=
| Idle
| Running
| GameOver (code : string) (reason : Reason).

Record State : Type := mkState {
  phase : GameState;            (* useState: state *)
  tickMs : Z;                   (* useState: tickMs *)
  timeLeft : Z;                 (* useState: timeLeft *)
  score : Z;                    (* useState: score *)
  best : jsnum;                 (* useState: best *)
  scoreRef : Z;
  snake : list Vec;             (* snakeRef, head first *)
  dir : Vec;
  nextDir : Vec;
  food : option Vec;
  poison : option Vec;
  obstacles : gset string;
  tickCount : Z;
  rand : list Q;                (* what Math.random() will return next *)
  storage : option string       (* localStorage["snake.best"] *)
}.

Definition set_phase (v : GameState) (st : State) : State :=
  mkState v (tickMs st) (timeLeft st) (score st) (best st) (scoreRef st)
    (snake st) (dir st) (nextDir st) (food st) (poison st) (obstacles st)
    (tickCount st) (rand st) (storage st).
Definition set_tickMs (v : Z) (st : State) : State :=
  mkState (phase st) v (timeLeft st) (score st) (best st) (scoreRef st)
    (snake st) (dir st) (nextDir st) (food st) (poison st) (obstacles st)
    (tickCount st) (rand st) (storage st).
Definition set_timeLeft (v : Z) (st : State) : State :=
  mkState (phase st) (tickMs st) v (score st) (best st) (scoreRef st)
    (snake st) (dir st) (nextDir st) (food st) (poison st) (obstacles st)
    (tickCount st) (rand st) (storage st).
Definition set_score (v : Z) (st : State) : State :=
  mkState (phase st) (tickMs st) (timeLeft st) v (best st) (scoreRef st)
    (snake st) (dir st) (nextDir st) (food st) (poison st) (obstacles st)
    (tickCount st) (rand st) (storage st).
Definition set_best (v : jsnum) (st : State) : State :=
  mkState (phase st) (tickMs st) (timeLeft st) (score st) v (scoreRef st)
    (snake st) (dir st) (nextDir st) (food st) (poison st) (obstacles st)
    (tickCount st) (rand st) (storage st).
Definition set_scoreRef (v : Z) (st : State) : State :=
  mkState (phase st) (tickMs st) (timeLeft st) (score st) (best st) v
    (snake st) (dir st) (nextDir st) (food st) (poison st) (obstacles st)
    (tickCount st) (rand st) (storage st).
Definition set_snake (v : list Vec) (st : State) : State :=
  mkState (phase st) (tickMs st) (timeLeft st) (score st) (best st)
    (scoreRef st) v (dir st) (nextDir st) (food st) (poison st)
    (obstacles st) (tickCount st) (rand st) (storage st).
Definition set_dir (v : Vec) (st : State) : State :=
  mkState (phase st) (tickMs st) (timeLeft st) (score st) (best st)
    (scoreRef st) (snake st) v (nextDir st) (food st) (poison st)
    (obstacles st) (tickCount st) (rand st) (storage st).
Definition set_nextDir (v : Vec) (st : State) : State :=
  mkState (phase st) (tickMs st) (timeLeft st) (score st) (best st)
    (scoreRef st) (snake st) (dir st) v (food st) (poison st)
    (obstacles st) (tickCount st) (rand st) (storage st).
Definition set_food (v : option Vec) (st : State) : State :=
  mkState (phase st) (tickMs st) (timeLeft st) (score st) (best st)
    (scoreRef st) (snake st) (dir st) (nextDir st) v (poison st)
    (obstacles st) (tickCount st) (rand st) (storage st).
Definition set_poison (v : option Vec) (st : State) : State :=
  mkState (phase st) (tickMs st) (timeLeft st) (score st) (best st)
    (scoreRef st) (snake st) (dir st) (nextDir st) (food st) v
    (obstacles st) (tickCount st) (rand st) (storage st).
Definition set_obstacles (v : gset string) (st : State) : State :=
  mkState (phase st) (tickMs st) (timeLeft st) (score st) (best st)
    (scoreRef st) (snake st) (dir st) (nextDir st) (food st) (poison st)
    v (tickCount st) (rand st) (storage st).
Definition set_tickCount (v : Z) (st : State) : State :=
  mkState (phase st) (tickMs st) (timeLeft st) (score st) (best st)
    (scoreRef st) (snake st) (dir st) (nextDir st) (food st) (poison st)
    (obstacles st) v (rand st) (storage st).
Definition set_rand (v : list Q) (st : State) : State :=
  mkState (phase st) (tickMs st) (timeLeft st) (score st) (best st)
    (scoreRef st) (snake st) (dir st) (nextDir st) (food st) (poison st)
    (obstacles st) (tickCount st) v (storage st).
Definition set_storage (v : option string) (st : State) : State :=
  mkState (phase st) (tickMs st) (timeLeft st) (score st) (best st)
    (scoreRef st) (snake st) (dir st) (nextDir st) (food st) (poison st)
    (obstacles st) (tickCount st) (rand st) v.

(** ** Random placement *)

(** [Math.random()]: the next value of the trace. *)
Definition Math_random (st : State) : option (Q * State) :=
  match rand st with
  | r :: rs => Some (r, set_rand rs st)
  | [] => None
  end.

(** The set [occupied] built at lines 83-87. *)
Definition occupied (st : State) : gset string :=
  list_to_set (key <$> snake st) ∪ obstacles st
  ∪ from_option (λ f, {[ key f ]}) ∅ (food st)
  ∪ from_option (λ p, {[ key p ]}) ∅ (poison st).

(** The cell drawn by one iteration of the loop (lines 89-92). *)
Definition cell_of (rx ry : Q) : Vec :=
  mkVec (Qfloor (rx * inject_Z GRID_COLS)) (Qfloor (ry * inject_Z GRID_ROWS)).

(** The [do ... while (occupied.has(key(v)))] loop (lines 88-93): two
    values of the trace per iteration, the first cell that is not occupied
    is returned together with the rest of the trace. *)
Fixpoint draw_loop (occ : gset string) (rs : list Q) : option (Vec * list Q) :=
  match rs with
  | rx :: ry :: rs' =>
      let v := cell_of rx ry in
      if bool_decide (key v ∈ occ) then draw_loop occ rs' else Some (v, rs')
  | _ => None
  end.

(** [randomEmptyCell] (lines 81-95). *)
Definition randomEmptyCell (st : State) : option (Vec * State) :=
  '(v, rs) ← draw_loop (occupied st) (rand st);
  Some (v, set_rand rs st).

(** ** Game operations *)

(** [endGame] (lines 166-178).  [elapsed] is computed and passed on, and
    [makeCode] ignores it. *)
Definition endGame (reason : Reason) (st : State) : State :=
  let finalScore := scoreRef st in
  let elapsed := TIME_LIMIT_S - timeLeft st in
  let code := makeCode finalScore elapsed in
  let nb := Math_max (best st) (JInt finalScore) in
  set_phase (GameOver code reason)
    (set_best nb (set_storage (Some (String_of nb)) st)).

(** [accel] (lines 180-182); [Math.floor] is the identity on integers. *)
Definition accel (st : State) : State :=
  set_tickMs (Z.max MIN_SPEED_MS (tickMs st - 4)) st.

(** The updater passed to [setScore] (lines 208-212 and 222-226): the new
    score is stored in the state cell and in [scoreRef]. *)
Definition add_score (d : Z) (st : State) : State :=
  let newScore := score st + d in
  set_score newScore (set_scoreRef newScore st).

(** The border pattern of [start] (lines 109-119). *)
Definition add_if (b : bool) (k : string) (obs : gset string) : gset string :=
  if b then {[ k ]} ∪ obs else obs.

Definition start_obstacles : gset string :=
  let rows :=
    foldl (λ obs i,
             add_if (Z.rem i 4 =? 0) (key (mkVec i (GRID_ROWS - 1)))
               (add_if (Z.rem i 3 =? 0) (key (mkVec i 0)) obs))
          ∅ (seqZ 0 GRID_COLS) in
  foldl (λ obs j,
           add_if (Z.rem j 4 =? 0) (key (mkVec (GRID_COLS - 1) j))
             (add_if (Z.rem j 3 =? 0) (key (mkVec 0 j)) obs))
        rows (seqZ 0 GRID_ROWS).

(** Lines 98-119 of [start]: the body, the directions and the border. *)
Definition start_layout (st : State) : State :=
  let cx := GRID_COLS / 2 in
  let cy := GRID_ROWS / 2 in
  let st := set_snake [mkVec (cx - 1) cy; mkVec (cx - 2) cy;
                       mkVec (cx - 3) cy; mkVec (cx - 4) cy] st in
  let st := set_dir (mkVec 1 0) st in
  let st := set_nextDir (mkVec 1 0) st in
  set_obstacles start_obstacles st.

(** [start] (lines 97-134).  The food is drawn while [foodRef] and
    [poisonRef] still hold the cells of the previous game. *)
Definition start (st : State) : option State :=
  let st := start_layout st in
  '(f, st) ← randomEmptyCell st;
  let st := set_food (Some f) st in
  let st := set_poison None st in
  let st := set_score 0 st in
  let st := set_scoreRef 0 st in
  let st := set_tickMs START_SPEED_MS st in
  let st := set_timeLeft TIME_LIMIT_S st in
  let st := set_tickCount 0 st in
  Some (set_phase Running st).

(** The head computed at lines 187-189. *)
Definition new_head (s0 d : Vec) : Vec := mkVec (x s0 + x d) (y s0 + y d).

(** The failure test of lines 191-195. *)
Definition hits (head : Vec) (st : State) : bool :=
  negb (within head)
  || bool_decide (key head ∈ obstacles st)
  || existsb (λ s, (x s =? x head) && (y s =? y head)) (snake st).

(** [foodRef.current && head.x === ... && head.y === ...] and the same test
    on [poisonRef]. *)
Definition at_cell (c : option Vec) (head : Vec) : bool :=
  match c with
  | Some f => (x head =? x f) && (y head =? y f)
  | None => false
  end.

(** Lines 202-216: returns the flag [grew]. *)
Definition eat_food (head : Vec) (st : State) : option (bool * State) :=
  if at_cell (food st) head then
    let st := add_score 5 st in
    '(v, st) ← randomEmptyCell st;
    Some (true, accel (set_food (Some v) st))
  else Some (false, st).

(** Lines 217-229. *)
Definition eat_poison (head : Vec) (st : State) : State :=
  if at_cell (poison st) head then
    let st := add_score (-7) st in
    let st := set_tickMs (Z.max MIN_SPEED_MS (tickMs st - 8)) st in
    set_poison None st
  else st.

(** [snakeRef.current.pop()]. *)
Definition pop (l : list Vec) : list Vec := removelast l.

(** Lines 234-240. *)
Definition spawn_obstacle (st : State) : option State :=
  if (Z.rem (tickCount st) OBSTACLE_INTERVAL_TICKS =? 0)
     && (Z.of_nat (size (obstacles st)) <? MAX_OBSTACLES)
  then '(o, st) ← randomEmptyCell st;
       Some (set_obstacles ({[ key o ]} ∪ obstacles st) st)
  else Some st.

(** [Math.random() < 0.6]: a comparison of two doubles, which is exact;
    the literal 0.6 denotes the double 5404319552844595 / 2^53. *)
Definition lt_06 (r : Q) : bool :=
  negb (Qle_bool (5404319552844595 # 9007199254740992) r).

(** Lines 241-243. *)
Definition spawn_poison (st : State) : option State :=
  if Z.rem (tickCount st) POISON_INTERVAL_TICKS =? 0 then
    '(r, st) ← Math_random st;
    if lt_06 r then
      '(v, st) ← randomEmptyCell st;
      Some (set_poison (Some v) st)
    else Some (set_poison None st)
  else Some st.

(** Lines 200-243 of [tick]: the move once the new head is known to be
    safe. *)
Definition advance (head : Vec) (st : State) : option State :=
  let st := set_snake (head :: snake st) st in
  '(grew, st) ← eat_food head st;
  let st := eat_poison head st in
  let st := if (grew : bool) then st else set_snake (pop (snake st)) st in
  let st := set_tickCount (tickCount st + 1) st in
  st ← spawn_obstacle st;
  spawn_poison st.

(** Line 185 of [tick]. *)
Definition turn (st : State) : State :=
  set_dir (validateTurn (dir st) (nextDir st)) st.

(** [tick] (lines 184-244).  With an empty body (before the first
    [start]) the head read at line 187 has no coordinates, [within] is
    false on it and the tick ends the game. *)
Definition tick (st : State) : option State :=
  let st := turn st in
  match snake st with
  | [] => Some (endGame Hit st)
  | s0 :: _ =>
      let head := new_head s0 (dir st) in
      if hits head st then Some (endGame Hit st) else advance head st
  end.

(** ** What the scheduler and the listeners call *)

(** The updater of [setTimeLeft] in [step] (lines 148-152), run when
    [secs >= 1] whole seconds have passed. *)
Definition countdown (secs : Z) (st : State) : State :=
  let nxt := Z.max 0 (timeLeft st - secs) in
  let st := if nxt =? 0 then endGame Timeout st else st in
  set_timeLeft nxt st.

(** One event is one call of a listener or one animation frame.  A frame
    ([step]) may find that whole seconds have passed (lines 146-154), that
    the tick interval has passed (lines 156-160), or both; a frame that
    finds neither changes nothing. *)
Inductive Event : Type :=
| EvStart                  (* the start button, Space or Enter *)
| EvKey (d : Vec)          (* a direction key or a swipe *)
| EvSecond (secs : Z)      (* a frame: only whole seconds have passed *)
| EvTick                   (* a frame: only the tick interval has passed *)
| EvSecondTick (secs : Z). (* a frame: both have passed *)

Definition is_running (st : State) : bool :=
  match phase st with Running => true | _ => false end.

(** [step] returns at once unless the phase is running (line 142), and
    does not look at the phase again: in a frame in which both the
    countdown and the tick are due, [tick] runs after the countdown even
    when the countdown has just ended the game.  The key listener and the
    buttons call [start] only when the phase is not running (lines 294-299,
    422, 461). *)
Definition fire (e : Event) (st : State) : option State :=
  match e with
  | EvStart => if is_running st then Some st else start st
  | EvKey d => Some (set_nextDir d st)
  | EvSecond secs => if is_running st then Some (countdown secs st) else Some st
  | EvTick => if is_running st then tick st else Some st
  | EvSecondTick secs =>
      if is_running st then tick (countdown secs st) else Some st
  end.

Fixpoint run (es : list Event) (st : State) : option State :=
  match es with
  | [] => Some st
  | e :: es' => st' ← fire e st; run es' st'
  end.

(** ** The persisted best score (lines 43-45) *)

(** ASCII white space stripped by the string-to-number conversion. *)
Definition is_ws (a : ascii) : bool :=
  let n := nat_of_ascii a in
  ((9 <=? n) && (n <=? 13) || (n =? 32))%nat.

Fixpoint ltrim (s : string) : string :=
  match s with
  | String a s' => if is_ws a then ltrim s' else s
  | EmptyString => EmptyString
  end.

Fixpoint rtrim (s : string) : string :=
  match s with
  | EmptyString => EmptyString
  | String a s' =>
      match rtrim s' with
      | EmptyString => if is_ws a then EmptyString else String a EmptyString
      | t => String a t
      end
  end.

Definition trim (s : string) : string := rtrim (ltrim s).

(** An optional sign followed by at least one decimal digit. *)
Definition parse_int (t : string) : option Z :=
  match t with
  | String "+" t' => Z.of_uint <$> NilZero.uint_of_string t'
  | _ => Z.of_int <$> NilZero.int_of_string t
  end.

(** An ASCII character that starts no numeric literal: not a sign, a dot,
    a digit or the [I] of [Infinity].  Bytes above 127 may belong to a
    Unicode space and are left out. *)
Definition starts_no_literal (a : ascii) : bool :=
  let n := nat_of_ascii a in
  ((n <? 128) && negb (is_ws a) && negb ((48 <=? n) && (n <=? 57))
   && negb (n =? 43) && negb (n =? 45) && negb (n =? 46) && negb (n =? 73))%nat.

(** [Number(s)] on a string.  The model evaluates three cases: white space
    only (0), a signed decimal integer that a double holds exactly, and a
    string whose first significant character starts no numeric literal
    (NaN).  On every other string (fractions, exponents, radix prefixes,
    [Infinity], integers beyond 2^53, non-ASCII text) it answers [None]:
    the value is left open. *)
Definition StringToNumber (s : string) : option jsnum :=
  match trim s with
  | EmptyString => Some (JInt 0)
  | String a t' =>
      match parse_int (String a t') with
      | Some z => if Z.abs z <=? 2 ^ 53 then Some (JInt z) else None
      | None => if starts_no_literal a then Some JNaN else None
      end
  end.

(** [localStorage.getItem("snake.best") || 0]: [null] and the empty string
    are falsy. *)
Definition or_zero (item : option string) : string + Z :=
  match item with
  | None => inr 0
  | Some EmptyString => inr 0
  | Some s => inl s
  end.

(** [Number(v)] on a string or a number. *)
Definition Number_of (v : string + Z) : option jsnum :=
  match v with
  | inl s => StringToNumber s
  | inr z => Some (JInt z)
  end.

(** The initializer of the state cell [best]. *)
Definition best_init (item : option string) : option jsnum :=
  Number_of (or_zero item).

(** ** The lock puzzle (src/App.tsx) *)

Definition PIN_COUNT : nat := 8.
Definition TOLERANCE : Z := 2.

(** [Array.prototype.every] with the element and its index. *)
Fixpoint every_from {A : Type} (f : A → nat → bool) (i : nat) (l : list A) : bool :=
  match l with
  | [] => true
  | a :: l' => f a i && every_from f (S i) l'
  end.

Definition every {A : Type} (f : A → nat → bool) (l : list A) : bool :=
  every_from f 0 l.

(** The callback of line 30.  Past the end of [targetPositions] the
    subtraction gives NaN and the comparison is false. *)
Definition pin_ok (targetPositions : list Z) (pos : Z) (i : nat) : bool :=
  match targetPositions !! i with
  | Some t => Z.abs (pos - t) <=? TOLERANCE
  | None => false
  end.

(** [allCorrect] (lines 29-31). *)
Definition allCorrect (currentPositions targetPositions : list Z) : bool :=
  every (pin_ok targetPositions) currentPositions.

Record Lock : Type := mkLock {
  targetPositions : list Z;
  currentPositions : list Z;
  unlocked : bool
}.

(** [handleSliderChange] (lines 22-26); the eight sliders only produce
    indices below the length, where the assignment is a plain update. *)
Definition handleSliderChange (index : nat) (value : Z) (l : Lock) : Lock :=
  mkLock (targetPositions l) (<[index := value]> (currentPositions l))
    (unlocked l).

(** The unlock effect (lines 28-36). *)
Definition unlock_effect (l : Lock) : Lock :=
  if allCorrect (currentPositions l) (targetPositions l) && negb (unlocked l)
  then mkLock (targetPositions l) (currentPositions l) true
  else l.

(** ** The placement invariant *)

(** Body, obstacles, food and poison occupy pairwise different cells, and
    a food cell is present. *)
Record placed (st : State) : Prop := mkPlaced {
  placed_food : is_Some (food st);
  placed_body_obstacles : ∀ s, s ∈ snake st → key s ∉ obstacles st;
  placed_food_body : ∀ f, food st = Some f → f ∉ snake st;
  placed_food_obstacles : ∀ f, food st = Some f → key f ∉ obstacles st;
  placed_poison_body : ∀ p, poison st = Some p → p ∉ snake st;
  placed_poison_obstacles : ∀ p, poison st = Some p → key p ∉ obstacles st;
  placed_food_poison : ∀ f p, food st = Some f → poison st = Some p → f ≠ p
}.

(** What the rejection loop reads from a trace: pairs that name occupied
    cells are skipped, the first pair that names a free cell is taken. *)
Inductive offers (occ : gset string) : list Q → Vec → list Q → Prop :=
| offers_here rx ry rs :
    key (cell_of rx ry) ∉ occ →
    offers occ (rx :: ry :: rs) (cell_of rx ry) rs
| offers_later rx ry rs v rs' :
    key (cell_of rx ry) ∈ occ →
    offers occ rs v rs' →
    offers occ (rx :: ry :: rs) v rs'.

(** Two trace values that make the loop draw the cell [v]. *)
Definition draws_of (v : Vec) : list Q := [x v # 28; y v # 20]%Q.

(** ** Cells of the grid *)

(** [Math.random()] returns values in [0,1). *)
Definition unit_trace (rs : list Q) : Prop :=
  Forall (λ r, (0 <= r)%Q ∧ (r < 1)%Q) rs.

(** Body, food and poison lie in the 28 x 20 grid, and the trace holds
    values of [Math.random()]. *)
Record in_grid (st : State) : Prop := mkInGrid {
  grid_body : ∀ s, s ∈ snake st → within s = true;
  grid_food : ∀ f, food st = Some f → within f = true;
  grid_poison : ∀ p, poison st = Some p → within p = true;
  grid_trace : unit_trace (rand st)
}.

(** ** Random values on which a tick returns at the first try *)

Definition obstacle_due (st : State) : bool :=
  (Z.rem (tickCount st + 1) OBSTACLE_INTERVAL_TICKS =? 0)
  && (Z.of_nat (size (obstacles st)) <? MAX_OBSTACLES).

Definition poison_due (st : State) : bool :=
  Z.rem (tickCount st + 1) POISON_INTERVAL_TICKS =? 0.

(** The values a move to [head] reads when the food goes to [c1] and the
    new obstacle to [c2] at the first draw, and the poison test reads 1. *)
Definition feed (head : Vec) (st : State) (c1 c2 : Vec) : list Q :=
  (if at_cell (food st) head then draws_of c1 else [])
  ++ (if obstacle_due st then draws_of c2 else [])
  ++ (if poison_due st then [1%Q] else []).

(** The trace of [st] starts with such values, for two different cells
    that are free once the head has moved. *)
Definition fed (st : State) (c1 c2 : Vec) (rest : list Q) : Prop :=
  ∀ s0 tl, snake st = s0 :: tl →
    let head := new_head s0 (validateTurn (dir st) (nextDir st)) in
    rand st = feed head st c1 c2 ++ rest
    ∧ (key c1 ∉ occupied (set_snake (head :: snake st) st))
    ∧ (key c2 ∉ occupied (set_snake (head :: snake st) st))
    ∧ key c1 ≠ key c2.

(** The characters of a printed integer. *)
Fixpoint all_chars (P : ascii → bool) (s : string) : bool :=
  match s with
  | EmptyString => true
  | String a s' => P a && all_chars P s'
  end.

Definition digit_or_minus (a : ascii) : bool :=
  let n := nat_of_ascii a in
  ((48 <=? n) && (n <=? 57) || (n =? 45))%nat.

(** A test that decides [placed] on a given state. *)
Definition apart (c : option Vec) (st : State) : bool :=
  match c with
  | Some v => negb (bool_decide (v ∈ snake st))
              && negb (bool_decide (key v ∈ obstacles st))
  | None => true
  end.

Definition placedb (st : State) : bool :=
  bool_decide (is_Some (food st))
  && forallb (λ s, negb (bool_decide (key s ∈ obstacles st))) (snake st)
  && apart (food st) st && apart (poison st) st
  && negb (bool_decide (is_Some (poison st) ∧ food st = poison st)).

(** ** Concrete configurations *)

(** The application before the first game, with a given random trace. *)
Definition idle_state (rs : list Q) : State :=
  mkState Idle START_SPEED_MS TIME_LIMIT_S 0 (JInt 0) 0 [] (mkVec 1 0)
    (mkVec 1 0) None None ∅ 0 rs None.

(** A running game on the border pattern of [start]. *)
Definition running_state (body : list Vec) (d : Vec) (f : Vec)
    (p : option Vec) (ticks : Z) (rs : list Q) : State :=
  mkState Running START_SPEED_MS TIME_LIMIT_S 0 (JInt 0) 0 body d d (Some f)
    p start_obstacles ticks rs None.

(** The snake one step from the right wall. *)
Definition at_wall : State :=
  running_state [mkVec 27 10; mkVec 26 10; mkVec 25 10; mkVec 24 10]
    ArrowRight (mkVec 5 5) None 7 [].

(** The game right after [start] on the trace 1/2, 1/2, 7/28, 5/20: the
    food is straight ahead, and one free cell is left on the trace. *)
Definition before_food : State :=
  running_state [mkVec 13 10; mkVec 12 10; mkVec 11 10; mkVec 10 10]
    ArrowRight (mkVec 14 10) None 0 [7 # 28; 5 # 20]%Q.

(** One tick later: the food is eaten and has moved to (7,5). *)
Definition after_food : State :=
  mkState Running 136 TIME_LIMIT_S 5 (JInt 0) 5
    [mkVec 14 10; mkVec 13 10; mkVec 12 10; mkVec 11 10; mkVec 10 10]
    ArrowRight ArrowRight (Some (mkVec 7 5)) None start_obstacles 1 [] None.

(** One key press before every tick. *)
Definition moves (ds : list Vec) : list Event :=
  flat_map (λ d, [EvKey d; EvTick]) ds.

(** Twice around a square, then up and to the right: 45 ticks. *)
Definition path45 : list Vec :=
  replicate 4 ArrowRight ++ replicate 4 ArrowDown
  ++ replicate 4 ArrowLeft ++ replicate 4 ArrowUp
  ++ replicate 4 ArrowRight ++ replicate 4 ArrowDown
  ++ replicate 4 ArrowLeft ++ replicate 4 ArrowUp
  ++ replicate 5 ArrowUp ++ replicate 8 ArrowRight.

(** Food at (3,3); obstacles at (5,5) on tick 18 and (6,6) on tick 36;
    poison at (22,5) on tick 23; three more values for tick 46. *)
Definition trace46 : list Q :=
  [3 # 28; 3 # 20; 5 # 28; 5 # 20; 1 # 2; 22 # 28; 5 # 20; 6 # 28; 6 # 20;
   1 # 2; 1 # 4; 1 # 4]%Q.

(** The game after [path45]: poison straight ahead on the 46th tick, the
    second multiple of [POISON_INTERVAL_TICKS]. *)
Definition before_poison_46 : State :=
  mkState Running START_SPEED_MS TIME_LIMIT_S 0 (JInt 0) 0
    [mkVec 21 5; mkVec 20 5; mkVec 19 5; mkVec 18 5] ArrowRight ArrowRight
    (Some (mkVec 3 3)) (Some (mkVec 22 5))
    ({[ "6,6" ]} ∪ ({[ "5,5" ]} ∪ start_obstacles)) 45
    [1 # 2; 1 # 4; 1 # 4]%Q None.

(** One tick later: the poison at (22,5) is eaten and a new one lies at
    (7,5). *)
Definition after_poison_46 : State :=
  mkState Running 132 TIME_LIMIT_S (-7) (JInt 0) (-7)
    [mkVec 22 5; mkVec 21 5; mkVec 20 5; mkVec 19 5] ArrowRight ArrowRight
    (Some (mkVec 3 3)) (Some (mkVec 7 5))
    ({[ "6,6" ]} ∪ ({[ "5,5" ]} ∪ start_obstacles)) 46 [] None.

(** The game of [before_food] after a frame in which 80 seconds and the
    tick interval have both passed: the countdown has ended the game, and
    the tick of the same frame has still eaten the food. *)
Definition timed_out_with_food : State :=
  mkState (GameOver CODE_LOCKED Timeout) 136 0 5 (JInt 0) 5
    [mkVec 14 10; mkVec 13 10; mkVec 12 10; mkVec 11 10; mkVec 10 10]
    ArrowRight ArrowRight (Some (mkVec 7 5)) None start_obstacles 1 []
    (Some "0").

(** A game that has run 14 ticks to the right wall, after such a frame:
    the countdown has ended the game and the tick has hit the wall. *)
Definition hit_at_timeout : State :=
  mkState (GameOver CODE_LOCKED Hit) START_SPEED_MS 0 0 (JInt 0) 0
    [mkVec 27 10; mkVec 26 10; mkVec 25 10; mkVec 24 10]
    ArrowRight ArrowRight (Some (mkVec 3 5)) None start_obstacles 14 []
    (Some "0").

(** Poison straight ahead on a tick that spawns nothing. *)
Definition before_poison_30 : State :=
  running_state [mkVec 13 10; mkVec 12 10; mkVec 11 10; mkVec 10 10]
    ArrowRight (mkVec 3 3) (Some (mkVec 14 10)) 29 [].

Definition after_poison_30 : State :=
  mkState Running 132 TIME_LIMIT_S (-7) (JInt 0) (-7)
    [mkVec 14 10; mkVec 13 10; mkVec 12 10; mkVec 11 10]
    ArrowRight ArrowRight (Some (mkVec 3 3)) None start_obstacles 30 [] None.

(** ** Keyboard and touch input (part_000, lines 18-27 and 288-330) *)

(** The table [DIRS] as a lookup by key value.  The argument ranges over
    the key values a keyboard event carries; the property names that an
    object inherits are not among them. *)
Definition DIRS (k : string) : option Vec :=
  if String.eqb k "ArrowUp" then Some (mkVec 0 (-1))
  else if String.eqb k "ArrowDown" then Some (mkVec 0 1)
  else if String.eqb k "ArrowLeft" then Some (mkVec (-1) 0)
  else if String.eqb k "ArrowRight" then Some (mkVec 1 0)
  else if String.eqb k "z" then Some (mkVec 0 (-1))
  else if String.eqb k "s" then Some (mkVec 0 1)
  else if String.eqb k "q" then Some (mkVec (-1) 0)
  else if String.eqb k "d" then Some (mkVec 1 0)
  else None.

(** The [keydown] listener (lines 289-300). *)
Definition onKey (k : string) (st : State) : option State :=
  let st := match DIRS k with
            | Some d => set_nextDir d st
            | None => st
            end in
  if negb (is_running st) && (String.eqb k " " || String.eqb k "Enter")
  then start st
  else Some st.

(** [a > b] on numbers. *)
Definition gtQ (a b : Q) : bool := negb (Qle_bool a b).

(** The classification of a drag by [dx] and [dy] (lines 316-322). *)
Definition swipe (dx dy : Q) : option Vec :=
  let ax := Qabs dx in
  let ay := Qabs dy in
  if gtQ ax 24 || gtQ ay 24 then
    if gtQ ax ay
    then Some (if gtQ dx 0 then ArrowRight else ArrowLeft)
    else Some (if gtQ dy 0 then ArrowDown else ArrowUp)
  else None.

(** The [touchend] listener (lines 310-323); [touch] is [touchRef.current]
    and [cx], [cy] are the client coordinates of the changed touch. *)
Definition onEnd (touch : option (Q * Q)) (cx cy : Q) (st : State) : State :=
  match touch with
  | None => st
  | Some (sx, sy) =>
      match swipe (cx - sx) (cy - sy) with
      | Some d => set_nextDir d st
      | None => st
      end
  end.

(** The events the listeners and the scheduler really produce: a
    direction of [DIRS], and at least one whole second (line 147). *)
Definition genuine (e : Event) : Prop :=
  match e with
  | EvKey d => is_dir d
  | EvSecond secs | EvSecondTick secs => 1 ≤ secs
  | EvStart | EvTick => True
  end.

(** The events a key press amounts to. *)
Definition key_events (k : string) : list Event :=
  match DIRS k with
  | Some d => [EvKey d]
  | None => []
  end
  ++ (if String.eqb k " " || String.eqb k "Enter" then [EvStart] else []).

(** The events the end of a touch amounts to. *)
Definition touch_events (touch : option (Q * Q)) (cx cy : Q) : list Event :=
  match touch with
  | None => []
  | Some (sx, sy) =>
      match swipe (cx - sx) (cy - sy) with
      | Some d => [EvKey d]
      | None => []
      end
  end.

(** ** Drawing (lines 251-286 and 355-357) *)

(** [String.prototype.split(",")]. *)
Fixpoint split_comma (s : string) : list string :=
  match s with
  | EmptyString => [EmptyString]
  | String a s' =>
      if Ascii.eqb a "," then EmptyString :: split_comma s'
      else match split_comma s' with
           | h :: t => String a h :: t
           | [] => [String a EmptyString]
           end
  end.

(** [const [x, y] = k.split(",").map(Number)] (line 265): the cell an
    obstacle key is drawn at, when both parts convert to integers. *)
Definition obstacle_xy (k : string) : option Vec :=
  match split_comma k with
  | sx :: sy :: _ =>
      match StringToNumber sx, StringToNumber sy with
      | Some (JInt vx), Some (JInt vy) => Some (mkVec vx vy)
      | _, _ => None
      end
  | _ => None
  end.

(** [Math.round]: the nearest integer, halves upwards. *)
Definition Math_round (q : Q) : Z := Qfloor (q + (1 # 2)).

(** [progressPct] (lines 355-357).  For the integers the countdown holds
    the quotient is a multiple of 1/3 and exact arithmetic rounds as the
    source does. *)
Definition progressPct (timeLeft : Z) : Z :=
  Math_round (inject_Z (TIME_LIMIT_S - timeLeft) / inject_Z TIME_LIMIT_S
              * inject_Z 100).

(** ** Shape of a game in progress *)

(** Two cells that share a side. *)
Definition adjacent (a b : Vec) : Prop :=
  Z.abs (x a - x b) + Z.abs (y a - y b) = 1.

(** Every cell of the list shares a side with the next one. *)
Fixpoint chain (l : list Vec) : Prop :=
  match l with
  | a :: l' =>
      match l' with
      | b :: _ => adjacent a b ∧ chain l'
      | [] => True
      end
  | [] => True
  end.

(** Every cell of the grid, column by column. *)
Definition all_cells : list Vec :=
  flat_map (λ cx, map (mkVec cx) (seqZ 0 GRID_ROWS)) (seqZ 0 GRID_COLS).

(** What holds in every game once [start] has run. *)
Record sane (st : State) : Prop := mkSane {
  sane_dir : is_dir (dir st);
  sane_nextDir : is_dir (nextDir st);
  sane_speed : MIN_SPEED_MS ≤ tickMs st ≤ START_SPEED_MS;
  sane_clock :
    match phase st with
    | Idle => False
    | Running => 0 < timeLeft st ≤ TIME_LIMIT_S
    | GameOver code reason =>
        0 ≤ timeLeft st ≤ TIME_LIMIT_S
        ∧ (reason = Timeout → timeLeft st = 0)
        ∧ ∃ s, code = makeCode s 0
               ∧ s ≤ 5 * (Z.of_nat (length (snake st)) - 4)
    end;
  sane_score : score st = scoreRef st;
  sane_length : (4 ≤ length (snake st))%nat;
  sane_points :
    ∃ p, 0 ≤ p
         ∧ score st = 5 * (Z.of_nat (length (snake st)) - 4) - 7 * p;
  sane_chain : chain (snake st);
  sane_nodup : NoDup (snake st);
  sane_within : ∀ s, s ∈ snake st → within s = true;
  sane_neck :
    phase st = Running →
    ∀ h n tl, snake st = h :: n :: tl → h = new_head n (dir st);
  sane_count : 0 ≤ tickCount st;
  sane_border : start_obstacles ⊆ obstacles st;
  sane_cap : (size (obstacles st) ≤ 40)%nat;
  sane_early_obstacles :
    tickCount st < OBSTACLE_INTERVAL_TICKS → obstacles st = start_obstacles;
  sane_early_poison :
    tickCount st < POISON_INTERVAL_TICKS → poison st = None
}.

(** Every obstacle key is the key of a cell of the grid. *)
Definition obstacle_cells (st : State) : Prop :=
  ∀ k, k ∈ obstacles st → ∃ v, within v = true ∧ k = key v.

(** A board with no free cell: the body covers the grid. *)
Definition full_board (rs : list Q) : State :=
  running_state all_cells ArrowRight (mkVec 0 0) None 0 rs.

(** ** The random draws in binary64

    Where a statement depends on which cell a random value names, the
    product is taken as the source takes it, in binary64: the values of
    [Math.random()] are doubles, here the primitive floats, whose
    multiplication is the IEEE 754 one. *)

(** [Math.floor] of a finite double, read off its sign, mantissa and
    exponent.  The doubles that are not finite, which [Math.random()] and
    its products with 28, 20 and 100 never are, are given 0. *)
Definition Math_floor (f : float) : Z :=
  match Prim2SF f with
  | S754_finite s m e =>
      let v := if s then Z.neg m else Z.pos m in
      if 0 <=? e then v * 2 ^ e else v / 2 ^ (- e)
  | _ => 0
  end.

(** A value [Math.random()] can return: a double in [0,1). *)
Definition unit_float (r : float) : bool :=
  PrimFloat.leb 0 r && PrimFloat.ltb r 1.

(** The cell of lines 89-92, [GRID_COLS] and [GRID_ROWS] being 28 and
    20. *)
Definition cell_of64 (rx ry : float) : Vec :=
  mkVec (Math_floor (PrimFloat.mul rx 28)) (Math_floor (PrimFloat.mul ry 20)).

(** The loop of lines 88-93 on doubles. *)
Fixpoint draw_loop64 (occ : gset string) (rs : list float)
    : option (Vec * list float) :=
  match rs with
  | rx :: ry :: rs' =>
      let v := cell_of64 rx ry in
      if bool_decide (key v ∈ occ) then draw_loop64 occ rs' else Some (v, rs')
  | _ => None
  end.

(** [randomEmptyCell] (lines 81-95) reading the doubles [rs]. *)
Definition randomEmptyCell64 (st : State) (rs : list float)
    : option (Vec * list float) :=
  draw_loop64 (occupied st) rs.

(** ** The rest of the lock puzzle (src/App.tsx) *)

(** [getRandomPositions] (lines 8-9): [count] calls of [Math.random()],
    in order, each double multiplied by 100 in binary64 and floored. *)
Fixpoint getRandomPositions (count : nat) (rs : list float)
    : option (list Z * list float) :=
  match count with
  | O => Some ([], rs)
  | S n =>
      match rs with
      | r :: rs' =>
          '(l, rest) ← getRandomPositions n rs';
          Some (Math_floor (PrimFloat.mul r 100) :: l, rest)
      | [] => None
      end
  end.

(** [resetGame] (lines 38-42). *)
Definition resetGame (rs : list float) (l : Lock) : option (Lock * list float) :=
  '(t, rest) ← getRandomPositions PIN_COUNT rs;
  Some (mkLock t (replicate PIN_COUNT 0) false, rest).

(** The colour class of a pin (lines 78-85); a missing target gives NaN
    for the distance and both comparisons fail. *)
Definition pin_color (pos : Z) (target : option Z) : string :=
  match target with
  | Some t =>
      let distance := Z.abs (pos - t) in
      if distance <=? TOLERANCE then "bg-green-500"
      else if distance <=? 10 then "bg-yellow-500"
      else "bg-gray-600"
  | None => "bg-gray-600"
  end.

(** What happens to the lock: a slider moves, the effect runs. *)
Inductive LockEvent : Type :=
| Slide (index : nat) (value : Z)
| Effect.

Definition lock_fire (e : LockEvent) (l : Lock) : Lock :=
  match e with
  | Slide i v => handleSliderChange i v l
  | Effect => unlock_effect l
  end.

Definition lock_run (es : list LockEvent) (l : Lock) : Lock :=
  foldl (λ l e, lock_fire e l) l es.

(** * Properties *)

Arguments key : simpl never.
Arguments Z_toString : simpl never.
Arguments pop : simpl never.
Arguments start_obstacles : simpl never.

(** ** makeCode *)

(** C6: for every score, [makeCode] answers the success code "4712" when
    the score is at least 100 and the placeholder otherwise; score 100
    gives "4712" and score 99 gives the placeholder, and the two strings
    differ. *)
Theorem makeCode_threshold (scoreVal elapsedSec : Z) :
  (100 ≤ scoreVal ∧ makeCode scoreVal elapsedSec = "4712"
   ∨ scoreVal < 100 ∧ makeCode scoreVal elapsedSec = "Code non débloqué")
  ∧ makeCode 100 elapsedSec = "4712"
  ∧ makeCode 99 elapsedSec = "Code non débloqué"
  ∧ makeCode 100 elapsedSec ≠ makeCode 99 elapsedSec.
Proof.
  split; [|done].
  unfold makeCode. destruct (Z.leb_spec 100 scoreVal); [left|right]; done.
Qed.

(** ** The lock puzzle *)

Lemma every_from_true {A : Type} (f : A → nat → bool) (l : list A) (i : nat) :
  every_from f i l = true ↔ ∀ k a, l !! k = Some a → f a (i + k)%nat = true.
Proof.
  revert i. induction l as [|a l IH]; intros i; simpl.
  - split; [intros _ k b Hk; by rewrite lookup_nil in Hk | done].
  - rewrite andb_true_iff, IH. split.
    + intros [Ha Hl] [|k] b Hk; simpl in Hk.
      * injection Hk as <-. by rewrite Nat.add_0_r.
      * rewrite Nat.add_succ_r. by apply Hl.
    + intros H. split.
      * specialize (H 0%nat a eq_refl). by rewrite Nat.add_0_r in H.
      * intros k b Hk. specialize (H (S k) b Hk).
        by rewrite Nat.add_succ_r in H.
Qed.

Lemma allCorrect_true (cur tgt : list Z) :
  allCorrect cur tgt = true
  ↔ ∀ i c, cur !! i = Some c →
           ∃ t, tgt !! i = Some t ∧ Z.abs (c - t) ≤ TOLERANCE.
Proof.
  unfold allCorrect, every. rewrite every_from_true. simpl.
  split; intros H i c Hi; specialize (H i c Hi); unfold pin_ok in *.
  - destruct (tgt !! i) as [t|]; [|done]. exists t. split; [done|lia].
  - destruct H as (t & -> & Ht). lia.
Qed.

(** C5: for current and target vectors of length 8, the unlock test
    [allCorrect] is true exactly when at every index the absolute
    difference of the two entries is at most 2.  (The bound [0,100) on the
    entries is not needed.) *)
Theorem allCorrect_iff_tolerance (cur tgt : list Z)
    (Hcur : length cur = PIN_COUNT) (Htgt : length tgt = PIN_COUNT) :
  allCorrect cur tgt = true
  ↔ ∀ i c t, cur !! i = Some c → tgt !! i = Some t → Z.abs (c - t) ≤ 2.
Proof.
  rewrite allCorrect_true. split.
  - intros H i c t Hc Ht. destruct (H i c Hc) as (t' & Ht' & Hle).
    rewrite Ht in Ht'. injection Ht' as <-. exact Hle.
  - intros H i c Hc.
    destruct (lookup_lt_is_Some_2 tgt i) as [t Ht].
    { rewrite Htgt, <- Hcur. by eapply lookup_lt_Some. }
    exists t. split; [done|]. by eapply H.
Qed.

Lemma allCorrect_iff_tolerance_witness :
  allCorrect [10; 20; 30; 40; 50; 60; 70; 99] [12; 18; 30; 41; 49; 62; 68; 97]
  = true
  ↔ ∀ i c t, [10; 20; 30; 40; 50; 60; 70; 99] !! i = Some c →
             [12; 18; 30; 41; 49; 62; 68; 97] !! i = Some t →
             Z.abs (c - t) ≤ 2.
Proof.
  apply (allCorrect_iff_tolerance
           [10; 20; 30; 40; 50; 60; 70; 99] [12; 18; 30; 41; 49; 62; 68; 97]);
    reflexivity.
Defined.

(** A target shorter than the sliders never unlocks: the comparison with
    a missing entry is false. *)
Lemma allCorrect_short_target (c : Z) (cur tgt : list Z) :
  (length tgt < length (c :: cur))%nat → allCorrect (c :: cur) tgt = false.
Proof.
  intros Hlen. apply not_true_is_false. rewrite allCorrect_true. intros H.
  destruct (lookup_lt_is_Some_2 (c :: cur) (length tgt) Hlen) as [a Ha].
  destruct (H _ _ Ha) as (t & Ht & _).
  apply lookup_lt_Some in Ht. lia.
Qed.

(** The effect never clears [unlocked], and sets it exactly when the
    test holds. *)
Lemma unlock_effect_unlocked (l : Lock) :
  unlocked (unlock_effect l)
  = unlocked l || allCorrect (currentPositions l) (targetPositions l).
Proof.
  destruct l as [tgt cur u]. unfold unlock_effect. simpl.
  destruct (allCorrect cur tgt), u; reflexivity.
Qed.

(** ** Direction changes *)

Lemma opposite_eq (d p : Vec) : p = opposite d ↔ x d = - x p ∧ y d = - y p.
Proof.
  destruct d as [dx dy], p as [px py]. unfold opposite. simpl. split.
  - intros H. injection H as Hx Hy. lia.
  - intros [Hx Hy]. f_equal; lia.
Qed.

Lemma validateTurn_cases (d p : Vec) :
  p = opposite d ∧ validateTurn d p = d
  ∨ p ≠ opposite d ∧ validateTurn d p = p.
Proof.
  unfold validateTurn.
  destruct (Z.eqb_spec (x d) (- x p)) as [Hx|Hx];
    [destruct (Z.eqb_spec (y d) (- y p)) as [Hy|Hy]|]; simpl.
  - left. split; [by apply opposite_eq | done].
  - right. split; [|done]. rewrite opposite_eq. tauto.
  - right. split; [|done]. rewrite opposite_eq. tauto.
Qed.

Lemma is_dir_not_opposite (d : Vec) : is_dir d → d ≠ opposite d.
Proof. by intros [-> | [-> | [-> | ->]]]. Qed.

(** ** Random placement *)

Lemma list_pair_ind {A : Type} (P : list A → Prop) :
  P [] → (∀ a, P [a]) → (∀ a b l, P l → P (a :: b :: l)) → ∀ l, P l.
Proof.
  intros Hnil Hone Hstep l.
  assert (P l ∧ ∀ a, P (a :: l)) as [H _]; [|exact H].
  induction l as [|b l [IH1 IH2]]; [by split|].
  split; [apply IH2 | intros a; by apply Hstep].
Qed.

(** The loop computes exactly what [offers] describes. *)
Lemma draw_loop_offers (occ : gset string) (rs : list Q) (v : Vec) (rs' : list Q) :
  draw_loop occ rs = Some (v, rs') ↔ offers occ rs v rs'.
Proof.
  split.
  - revert v rs'. induction rs as [| |rx ry rs IH] using list_pair_ind;
      intros v rs' H; simpl in H; try discriminate.
    case_bool_decide as Hocc.
    + apply offers_later; [done|]. by apply IH.
    + injection H as <- <-. by apply offers_here.
  - induction 1 as [rx ry rs Hfree|rx ry rs v rs' Hocc _ IH]; simpl.
    + by rewrite bool_decide_eq_false_2.
    + by rewrite bool_decide_eq_true_2.
Qed.

Lemma offers_free (occ : gset string) (rs : list Q) (v : Vec) (rs' : list Q) :
  offers occ rs v rs' → key v ∉ occ.
Proof. induction 1; done. Qed.

Lemma offers_suffix (occ : gset string) (rs : list Q) (v : Vec) (rs' : list Q) :
  offers occ rs v rs' → rs' `suffix_of` rs.
Proof.
  induction 1 as [rx ry rs _|rx ry rs v rs' _ _ IH].
  - by exists [rx; ry].
  - destruct IH as [k ->]. by exists (rx :: ry :: k).
Qed.

(** Enough trace gives a result: the loop returns as soon as the trace
    holds, at an even offset, a pair that names a free cell. *)
Lemma draw_loop_finds (occ : gset string) (pre : list Q) (rx ry : Q) (post : list Q) :
  Nat.Even (length pre) →
  key (cell_of rx ry) ∉ occ →
  ∃ v rs', draw_loop occ (pre ++ rx :: ry :: post) = Some (v, rs').
Proof.
  intros Heven Hfree. revert Heven.
  induction pre as [|a|a b pre IH] using list_pair_ind; intros Heven; simpl.
  - rewrite bool_decide_eq_false_2 by done. eauto.
  - destruct Heven as [k Hk]. simpl in Hk. lia.
  - case_bool_decide; [|eauto]. apply IH.
    destruct Heven as [k Hk]. simpl in Hk. exists (k - 1)%nat. lia.
Qed.

(** Without such a pair the loop does not return on this trace. *)
Lemma draw_loop_all_occupied (occ : gset string) (rs : list Q) :
  (∀ rx ry, key (cell_of rx ry) ∈ occ) → draw_loop occ rs = None.
Proof.
  intros Hfull. induction rs as [| |rx ry rs IH] using list_pair_ind; simpl;
    try done.
  by rewrite bool_decide_eq_true_2.
Qed.

Lemma cell_of_draws (v : Vec) :
  cell_of (x v # 28) (y v # 20) = v.
Proof.
  destruct v as [vx vy].
  unfold cell_of, Qfloor, GRID_COLS, GRID_ROWS. simpl.
  change (Z.pos (28 * 1)) with 28. change (Z.pos (20 * 1)) with 20.
  f_equal; by apply Z.div_mul.
Qed.

Lemma occupied_spec (st : State) (k : string) :
  k ∈ occupied st
  ↔ (∃ s, s ∈ snake st ∧ k = key s) ∨ k ∈ obstacles st
    ∨ (∃ f, food st = Some f ∧ k = key f)
    ∨ (∃ p, poison st = Some p ∧ k = key p).
Proof.
  unfold occupied. rewrite !elem_of_union, elem_of_list_to_set, list_elem_of_fmap.
  destruct (food st) as [f|], (poison st) as [p|]; simpl;
    rewrite ?elem_of_singleton, ?elem_of_empty; naive_solver.
Qed.

(** A cell that is not occupied differs from every body cell, from the
    food and from the poison, and is no obstacle. *)
Lemma not_occupied (st : State) (v : Vec) :
  key v ∉ occupied st →
  (v ∉ snake st) ∧ (key v ∉ obstacles st) ∧ food st ≠ Some v
  ∧ poison st ≠ Some v
  ∧ (∀ s, s ∈ snake st → key s ≠ key v)
  ∧ (∀ f, food st = Some f → key f ≠ key v)
  ∧ (∀ p, poison st = Some p → key p ≠ key v).
Proof.
  rewrite occupied_spec. intros H. repeat split.
  - intros Hin. apply H. left. eauto.
  - intros Hin. apply H. tauto.
  - intros Hf. apply H. right; right; left. eauto.
  - intros Hp. apply H. right; right; right. eauto.
  - intros s Hin Heq. apply H. left. eauto.
  - intros f Hf Heq. apply H. right; right; left. eauto.
  - intros q Hq Heq. apply H. right; right; right. eauto.
Qed.

Lemma randomEmptyCell_inv (st : State) (v : Vec) (st' : State) :
  randomEmptyCell st = Some (v, st') →
  offers (occupied st) (rand st) v (rand st') ∧ st' = set_rand (rand st') st.
Proof.
  unfold randomEmptyCell.
  destruct (draw_loop (occupied st) (rand st)) as [[v0 rs]|] eqn:E; simpl;
    [|done].
  intros H. injection H as <- <-. simpl. split; [|done].
  by apply draw_loop_offers.
Qed.

(** [randomEmptyCell] returns as soon as the trace offers a free cell. *)
Lemma randomEmptyCell_finds (st : State) (pre : list Q) (rx ry : Q) (post : list Q) :
  rand st = pre ++ rx :: ry :: post →
  Nat.Even (length pre) →
  key (cell_of rx ry) ∉ occupied st →
  ∃ v st', randomEmptyCell st = Some (v, st').
Proof.
  intros Hrand Heven Hfree. unfold randomEmptyCell. rewrite Hrand.
  destruct (draw_loop_finds (occupied st) pre rx ry post Heven Hfree)
    as (v & rs' & ->).
  simpl. eauto.
Qed.

(** ** The stages of a tick *)

Lemma at_cell_true (c : option Vec) (head : Vec) :
  at_cell c head = true ↔ c = Some head.
Proof.
  destruct c as [[fx fy]|], head as [hx hy]; simpl; [|done].
  rewrite andb_true_iff, !Z.eqb_eq. split.
  - by intros [-> ->].
  - intros H. by injection H as -> ->.
Qed.

Lemma at_cell_false (c : option Vec) (head : Vec) :
  at_cell c head = false ↔ c ≠ Some head.
Proof. rewrite <- at_cell_true. by destruct (at_cell c head). Qed.

Lemma body_test_true (head : Vec) (l : list Vec) :
  existsb (λ s, (x s =? x head) && (y s =? y head)) l = true ↔ head ∈ l.
Proof.
  induction l as [|s l IH]; simpl.
  - by rewrite elem_of_nil.
  - rewrite orb_true_iff, IH, elem_of_cons, andb_true_iff, !Z.eqb_eq.
    destruct s as [sx sy], head as [hx hy]. simpl. naive_solver.
Qed.

Lemma hits_true (head : Vec) (st : State) :
  hits head st = true
  ↔ within head = false ∨ key head ∈ obstacles st ∨ head ∈ snake st.
Proof.
  unfold hits. rewrite !orb_true_iff, negb_true_iff, bool_decide_eq_true,
    body_test_true. tauto.
Qed.

Lemma hits_false (head : Vec) (st : State) :
  hits head st = false
  ↔ within head = true ∧ (key head ∉ obstacles st) ∧ (head ∉ snake st).
Proof.
  unfold hits. rewrite !orb_false_iff, negb_false_iff, bool_decide_eq_false,
    <- body_test_true, not_true_iff_false. tauto.
Qed.

Lemma eat_food_inv (head : Vec) (st : State) (g : bool) (st' : State) :
  eat_food head st = Some (g, st') →
  food st ≠ Some head ∧ g = false ∧ st' = st
  ∨ food st = Some head ∧ g = true
    ∧ ∃ v rs, offers (occupied st) (rand st) v rs
              ∧ st' = accel (set_food (Some v) (set_rand rs (add_score 5 st))).
Proof.
  unfold eat_food. destruct (at_cell (food st) head) eqn:E.
  - apply at_cell_true in E.
    destruct (randomEmptyCell (add_score 5 st)) as [[v st1]|] eqn:R; simpl;
      [|done].
    intros H. injection H as <- <-. right. split; [done|]. split; [done|].
    apply randomEmptyCell_inv in R as [Hoff ->].
    exists v, (rand st1). by split.
  - apply at_cell_false in E. intros H. injection H as <- <-. by left.
Qed.

Lemma eat_poison_cases (head : Vec) (st : State) :
  poison st ≠ Some head ∧ eat_poison head st = st
  ∨ poison st = Some head
    ∧ eat_poison head st
      = set_poison None
          (set_tickMs (Z.max MIN_SPEED_MS (tickMs st - 8)) (add_score (-7) st)).
Proof.
  unfold eat_poison. destruct (at_cell (poison st) head) eqn:E.
  - apply at_cell_true in E. by right.
  - apply at_cell_false in E. by left.
Qed.

Lemma eat_poison_snake (head : Vec) (st : State) :
  snake (eat_poison head st) = snake st.
Proof. unfold eat_poison. by destruct (at_cell _ _). Qed.

Lemma eat_poison_tickCount (head : Vec) (st : State) :
  tickCount (eat_poison head st) = tickCount st.
Proof. unfold eat_poison. by destruct (at_cell _ _). Qed.

Lemma spawn_obstacle_inv (st st' : State) :
  spawn_obstacle st = Some st' →
  st' = st
  ∨ Z.rem (tickCount st) OBSTACLE_INTERVAL_TICKS = 0
    ∧ ∃ o rs, offers (occupied st) (rand st) o rs
              ∧ st' = set_obstacles ({[ key o ]} ∪ obstacles st) (set_rand rs st).
Proof.
  unfold spawn_obstacle.
  destruct (Z.eqb_spec (Z.rem (tickCount st) OBSTACLE_INTERVAL_TICKS) 0)
    as [Hdue|_]; simpl; [|intros H; injection H as <-; by left].
  destruct (_ <? _); [|intros H; injection H as <-; by left].
  destruct (randomEmptyCell st) as [[o st1]|] eqn:R; simpl; [|done].
  intros H. injection H as <-. right. split; [done|].
  apply randomEmptyCell_inv in R as [Hoff ->].
  exists o, (rand st1). by split.
Qed.

Lemma spawn_poison_inv (st st' : State) :
  spawn_poison st = Some st' →
  Z.rem (tickCount st) POISON_INTERVAL_TICKS ≠ 0 ∧ st' = st
  ∨ Z.rem (tickCount st) POISON_INTERVAL_TICKS = 0
    ∧ ∃ r rs, rand st = r :: rs
       ∧ (lt_06 r = false ∧ st' = set_poison None (set_rand rs st)
          ∨ lt_06 r = true
            ∧ ∃ v rs', offers (occupied st) rs v rs'
                       ∧ st' = set_poison (Some v) (set_rand rs' st)).
Proof.
  unfold spawn_poison.
  destruct (Z.eqb_spec (Z.rem (tickCount st) POISON_INTERVAL_TICKS) 0)
    as [Hdue|Hnot]; [|intros H; injection H as <-; by left].
  unfold Math_random. destruct (rand st) as [|r rs] eqn:Hrand; simpl; [done|].
  intros H. right. split; [done|]. exists r, rs. split; [done|].
  destruct (lt_06 r).
  - destruct (randomEmptyCell (set_rand rs st)) as [[v st1]|] eqn:R; simpl in H;
      [|done].
    injection H as <-. right. split; [done|].
    apply randomEmptyCell_inv in R as [Hoff ->].
    exists v, (rand st1). by split.
  - injection H as <-. by left.
Qed.

(** The state after lines 200-233, before the two spawn steps. *)
Lemma advance_inv (head : Vec) (st st' : State) :
  advance head st = Some st' →
  ∃ g st2 st3,
    eat_food head (set_snake (head :: snake st) st) = Some (g, st2)
    ∧ spawn_obstacle
        (set_tickCount (tickCount st + 1)
           (if g then eat_poison head st2
            else set_snake (pop (head :: snake st)) (eat_poison head st2)))
      = Some st3
    ∧ spawn_poison st3 = Some st'.
Proof.
  unfold advance.
  destruct (eat_food head (set_snake (head :: snake st) st))
    as [[g st2]|] eqn:Hfood; simpl; [|done].
  assert (snake (eat_poison head st2) = head :: snake st
          ∧ tickCount (eat_poison head st2) = tickCount st) as [Hs Ht].
  { rewrite eat_poison_snake, eat_poison_tickCount.
    by apply eat_food_inv in Hfood
      as [(_ & _ & ->)|(_ & _ & v & rs & _ & ->)]. }
  destruct g; simpl; rewrite ?Hs, Ht;
    (destruct (spawn_obstacle _) as [st3|] eqn:Hobs; simpl; [|done]);
    intros Hpoison; eexists _, st2, st3; by repeat split.
Qed.

Lemma tick_inv (st st' : State) :
  tick st = Some st' →
  st' = endGame Hit (turn st)
  ∨ ∃ s0 tl, snake st = s0 :: tl
      ∧ hits (new_head s0 (dir (turn st))) (turn st) = false
      ∧ advance (new_head s0 (dir (turn st))) (turn st) = Some st'.
Proof.
  unfold tick. change (snake (turn st)) with (snake st).
  destruct (snake st) as [|s0 tl] eqn:Hsnake.
  - intros H. injection H as <-. by left.
  - destruct (hits _ _) eqn:Hhit.
    + intros H. injection H as <-. by left.
    + intros H. right. by exists s0, tl.
Qed.

(** Case analysis of a completed move: food eaten or not, poison eaten or
    not, obstacle added or not, poison left alone, cleared or respawned. *)
Ltac advance_cases H :=
  let Hfood := fresh "Hfood" in
  let Hobs := fresh "Hobs" in
  let Hpoison := fresh "Hpoison" in
  apply advance_inv in H as (?g & ?st2 & ?st3 & Hfood & Hobs & Hpoison);
  apply eat_food_inv in Hfood
    as [(?Hf & -> & ->)|(?Hf & -> & ?v & ?rs & ?Hv & ->)];
  (match type of Hobs with
   | context [eat_poison ?h ?s] =>
       let E := fresh "E" in
       destruct (eat_poison_cases h s) as [[?Hp E]|[?Hp E]];
       rewrite E in Hobs; clear E
   end);
  apply spawn_obstacle_inv in Hobs
    as [->|(?Hdue & ?o & ?rs & ?Ho & ->)];
  apply spawn_poison_inv in Hpoison
    as [[?Hnp ->]
       |(?Hdp & ?r & ?rs & ?Hr
         & [[?Hlt ->]|(?Hlt & ?p & ?rs & ?Hpz & ->)])];
  simpl in *.

(** What a completed move does to the fields that no random draw
    touches. *)
Lemma advance_fields (head : Vec) (st st' : State) :
  advance head st = Some st' →
  snake st'
  = (if at_cell (food st) head then head :: snake st
     else pop (head :: snake st))
  ∧ score st'
    = score st + (if at_cell (food st) head then 5 else 0)
      + (if at_cell (poison st) head then -7 else 0)
  ∧ tickMs st'
    = (let ms := if at_cell (food st) head
                 then Z.max MIN_SPEED_MS (tickMs st - 4) else tickMs st in
       if at_cell (poison st) head then Z.max MIN_SPEED_MS (ms - 8) else ms)
  ∧ tickCount st' = tickCount st + 1
  ∧ phase st' = phase st ∧ best st' = best st ∧ dir st' = dir st
  ∧ nextDir st' = nextDir st ∧ timeLeft st' = timeLeft st
  ∧ storage st' = storage st.
Proof.
  intros H. advance_cases H.
  all: repeat match goal with
         | H : _ = Some _ |- _ => apply at_cell_true in H; rewrite H
         | H : _ ≠ Some _ |- _ => apply at_cell_false in H; rewrite H
         end.
  all: repeat split; simpl; try reflexivity; lia.
Qed.

(** ** Collisions *)

(** C2: in a running game, when the new head (old head plus the direction
    in force after [validateTurn]) is outside the 28 x 20 grid, or its key
    is an obstacle, or it is a body cell, [tick] returns [endGame] with
    reason hit: the phase becomes game over with reason hit, and body,
    obstacles, food, poison, score, tick interval and tick counter (and
    the pending direction, the random trace and the countdown) are what
    they were.  Only the direction and the best score are written
    besides the phase. *)
Theorem tick_hit_only_ends_game (st : State) (s0 : Vec) (tl : list Vec)
    (Hrun : phase st = Running) (Hsnake : snake st = s0 :: tl)
    (Hfail : within (new_head s0 (validateTurn (dir st) (nextDir st))) = false
             ∨ key (new_head s0 (validateTurn (dir st) (nextDir st)))
               ∈ obstacles st
             ∨ new_head s0 (validateTurn (dir st) (nextDir st)) ∈ snake st) :
  ∃ st' code,
    tick st = Some st' ∧ st' = endGame Hit (turn st)
    ∧ phase st' = GameOver code Hit
    ∧ snake st' = snake st ∧ obstacles st' = obstacles st
    ∧ food st' = food st ∧ poison st' = poison st
    ∧ score st' = score st ∧ scoreRef st' = scoreRef st
    ∧ tickMs st' = tickMs st ∧ tickCount st' = tickCount st
    ∧ nextDir st' = nextDir st ∧ rand st' = rand st
    ∧ timeLeft st' = timeLeft st.
Proof.
  exists (endGame Hit (turn st)),
    (makeCode (scoreRef st) (TIME_LIMIT_S - timeLeft st)).
  split; [|by repeat split].
  unfold tick. change (snake (turn st)) with (snake st). rewrite Hsnake.
  apply (hits_true _ (turn st)) in Hfail.
  change (dir (turn st)) with (validateTurn (dir st) (nextDir st)).
  by rewrite Hfail.
Qed.

Lemma tick_hit_only_ends_game_witness :
  ∃ st' code,
    tick at_wall = Some st' ∧ st' = endGame Hit (turn at_wall)
    ∧ phase st' = GameOver code Hit
    ∧ snake st' = snake at_wall ∧ obstacles st' = obstacles at_wall
    ∧ food st' = food at_wall ∧ poison st' = poison at_wall
    ∧ score st' = score at_wall ∧ scoreRef st' = scoreRef at_wall
    ∧ tickMs st' = tickMs at_wall ∧ tickCount st' = tickCount at_wall
    ∧ nextDir st' = nextDir at_wall ∧ rand st' = rand at_wall
    ∧ timeLeft st' = timeLeft at_wall.
Proof.
  apply (tick_hit_only_ends_game at_wall (mkVec 27 10)
           [mkVec 26 10; mkVec 25 10; mkVec 24 10]).
  - reflexivity.
  - reflexivity.
  - left. reflexivity.
Defined.

(** The three failures are the only way a tick of a game with a body ends
    it: otherwise the phase is kept. *)
Lemma tick_no_hit_keeps_phase (st st' : State) (s0 : Vec) (tl : list Vec) :
  snake st = s0 :: tl →
  hits (new_head s0 (dir (turn st))) (turn st) = false →
  tick st = Some st' → phase st' = phase st.
Proof.
  intros Hsnake Hhit Htick. unfold tick in Htick.
  change (snake (turn st)) with (snake st) in Htick.
  rewrite Hsnake, Hhit in Htick.
  by apply advance_fields in Htick as (_ & _ & _ & _ & -> & _).
Qed.

(** ** The body *)

Lemma pop_sublist (l : list Vec) : pop l `sublist_of` l.
Proof.
  unfold pop. induction l as [|a [|b l] IH]; simpl.
  - done.
  - by apply sublist_cons.
  - by apply sublist_skip.
Qed.

Lemma pop_cons_cons (a b : Vec) (l : list Vec) :
  pop (a :: b :: l) = a :: pop (b :: l).
Proof. reflexivity. Qed.

Lemma length_pop_cons (a : Vec) (l : list Vec) : length (pop (a :: l)) = length l.
Proof.
  revert a. induction l as [|b l IH]; intros a; [done|].
  rewrite pop_cons_cons. simpl. by rewrite IH.
Qed.

(** ** A tick returns when the random values allow it *)

Lemma draw_loop_first (occ : gset string) (c : Vec) (rest : list Q) :
  key c ∉ occ → draw_loop occ (draws_of c ++ rest) = Some (c, rest).
Proof.
  intros Hfree. unfold draws_of. simpl. rewrite cell_of_draws.
  by rewrite bool_decide_eq_false_2.
Qed.

Lemma randomEmptyCell_first (st : State) (c : Vec) (rest : list Q) :
  rand st = draws_of c ++ rest → key c ∉ occupied st →
  randomEmptyCell st = Some (c, set_rand rest st).
Proof.
  intros Hrand Hfree. unfold randomEmptyCell. rewrite Hrand.
  by rewrite draw_loop_first.
Qed.

Lemma eat_food_completes (head : Vec) (st : State) (c : Vec) (rest : list Q) :
  rand st = (if at_cell (food st) head then draws_of c else []) ++ rest →
  key c ∉ occupied st →
  ∃ g st', eat_food head st = Some (g, st') ∧ rand st' = rest
           ∧ snake st' = snake st ∧ obstacles st' = obstacles st
           ∧ tickCount st' = tickCount st ∧ poison st' = poison st
           ∧ food st' = (if at_cell (food st) head then Some c else food st).
Proof.
  intros Hrand Hfree. unfold eat_food.
  destruct (at_cell (food st) head).
  - erewrite randomEmptyCell_first; [|exact Hrand|exact Hfree].
    simpl. eexists _, _. split; [done|]. by repeat split.
  - eexists _, _. split; [done|]. by repeat split.
Qed.

Lemma spawn_obstacle_completes (st : State) (c : Vec) (rest : list Q) :
  rand st
  = (if (Z.rem (tickCount st) OBSTACLE_INTERVAL_TICKS =? 0)
        && (Z.of_nat (size (obstacles st)) <? MAX_OBSTACLES)
     then draws_of c else []) ++ rest →
  key c ∉ occupied st →
  ∃ st', spawn_obstacle st = Some st' ∧ rand st' = rest
         ∧ tickCount st' = tickCount st ∧ food st' = food st.
Proof.
  intros Hrand Hfree. unfold spawn_obstacle.
  destruct (_ && _).
  - erewrite randomEmptyCell_first; [|exact Hrand|exact Hfree].
    simpl. by eexists.
  - by eexists.
Qed.

Lemma spawn_poison_completes (st : State) (rest : list Q) :
  rand st
  = (if Z.rem (tickCount st) POISON_INTERVAL_TICKS =? 0 then [1%Q] else [])
    ++ rest →
  ∃ st', spawn_poison st = Some st' ∧ rand st' = rest
         ∧ food st' = food st.
Proof.
  intros Hrand. unfold spawn_poison, Math_random.
  destruct (_ =? 0).
  - rewrite Hrand. simpl. by eexists.
  - by eexists.
Qed.

Lemma eat_poison_frame (head : Vec) (st : State) :
  rand (eat_poison head st) = rand st
  ∧ obstacles (eat_poison head st) = obstacles st
  ∧ food (eat_poison head st) = food st
  ∧ (poison (eat_poison head st) = poison st
     ∨ poison (eat_poison head st) = None).
Proof.
  unfold eat_poison. destruct (at_cell _ _); simpl; repeat split; auto.
Qed.

Lemma advance_completes (head : Vec) (st : State) (c1 c2 : Vec) (rest : list Q) :
  rand st = feed head st c1 c2 ++ rest →
  key c1 ∉ occupied (set_snake (head :: snake st) st) →
  key c2 ∉ occupied (set_snake (head :: snake st) st) →
  key c1 ≠ key c2 →
  ∃ st', advance head st = Some st' ∧ rand st' = rest
         ∧ food st' = (if at_cell (food st) head then Some c1 else food st).
Proof.
  intros Hrand H1 H2 Hne. unfold feed in Hrand.
  rewrite <- !app_assoc in Hrand.
  destruct (eat_food_completes head (set_snake (head :: snake st) st) c1 _
              Hrand H1)
    as (g & st2 & Hfood & Hr2 & Hs2 & Ho2 & Ht2 & Hp2 & Hf2).
  simpl in Hs2, Ho2, Ht2, Hp2, Hf2.
  unfold advance. rewrite Hfood. simpl.
  destruct (eat_poison_frame head st2) as (Hre & Hoe & Hfe & Hpe).
  pose proof (eat_poison_snake head st2) as Hse.
  pose proof (eat_poison_tickCount head st2) as Hte.
  set (e := eat_poison head st2) in *.
  set (m := set_tickCount _ _).
  assert (rand m = rand e ∧ obstacles m = obstacles e
          ∧ tickCount m = tickCount st + 1
          ∧ food m = food e ∧ poison m = poison e
          ∧ ∀ s, s ∈ snake m → s ∈ head :: snake st)
    as (Hrm & Hom & Htm & Hfm & Hpm & Hsm).
  { subst m. destruct g; simpl; rewrite Hte, Ht2; repeat split; try done.
    - intros s. by rewrite Hse, Hs2.
    - intros s Hs. rewrite Hse, Hs2 in Hs.
      eapply elem_of_sublist; [exact Hs|apply pop_sublist]. }
  assert (key c2 ∉ occupied m) as Hfree.
  { apply not_occupied in H2 as (_ & Hc2o & _ & _ & Hc2s & Hc2f & Hc2p).
    simpl in Hc2o, Hc2s, Hc2f, Hc2p. rewrite occupied_spec.
    intros [(s & Hs & Heq)|[Hin|[(f & Hf & Heq)|(p & Hp & Heq)]]].
    - by eapply Hc2s; [apply Hsm|].
    - apply Hc2o. by rewrite <- Ho2, <- Hoe, <- Hom.
    - rewrite Hfm, Hfe, Hf2 in Hf. destruct (at_cell (food st) head).
      + injection Hf as <-. by apply Hne.
      + by eapply Hc2f.
    - rewrite Hpm in Hp. destruct Hpe as [Hpe|Hpe]; rewrite Hpe in Hp; [|done].
      rewrite Hp2 in Hp. by eapply Hc2p. }
  destruct (spawn_obstacle_completes m c2
              ((if poison_due st then [1%Q] else []) ++ rest))
    as (st3 & Hobs & Hr3 & Ht3 & Hf3); [|exact Hfree|].
  { rewrite Hrm, Hre, Hr2, Htm, Hom, Hoe, Ho2. reflexivity. }
  rewrite Hobs. simpl.
  destruct (spawn_poison_completes st3 rest) as (st' & Hpo & Hr' & Hf').
  { by rewrite Hr3, Ht3, Htm. }
  exists st'. split; [done|]. split; [done|].
  by rewrite Hf', Hf3, Hfm, Hfe.
Qed.

(** Enough favourable random values give the result of a move. *)
Lemma tick_moves (st : State) (s0 : Vec) (tl : list Vec) (c1 c2 : Vec)
    (rest : list Q) :
  fed st c1 c2 rest → snake st = s0 :: tl →
  hits (new_head s0 (validateTurn (dir st) (nextDir st))) (turn st) = false →
  ∃ st', tick st = Some st' ∧ rand st' = rest
         ∧ food st'
           = (if at_cell (food st)
                   (new_head s0 (validateTurn (dir st) (nextDir st)))
              then Some c1 else food st).
Proof.
  intros Hfed Hsnake Hhit. unfold tick.
  change (snake (turn st)) with (snake st). rewrite Hsnake.
  change (dir (turn st)) with (validateTurn (dir st) (nextDir st)).
  rewrite Hhit.
  destruct (Hfed s0 tl Hsnake) as (Hrand & H1 & H2 & Hne).
  by apply (advance_completes _ (turn st) c1 c2 rest).
Qed.

(** A tick returns: at once on a failure, and on a move when the random
    values are favourable. *)
Lemma tick_completes (st : State) (c1 c2 : Vec) (rest : list Q) :
  fed st c1 c2 rest → is_Some (tick st).
Proof.
  intros Hfed. destruct (snake st) as [|s0 tl] eqn:Hsnake.
  - unfold tick. change (snake (turn st)) with (snake st).
    rewrite Hsnake. by eexists.
  - destruct (hits (new_head s0 (validateTurn (dir st) (nextDir st)))
                (turn st)) eqn:Hhit.
    + unfold tick. change (snake (turn st)) with (snake st). rewrite Hsnake.
      change (dir (turn st)) with (validateTurn (dir st) (nextDir st)).
      rewrite Hhit. by eexists.
    + destruct (tick_moves st s0 tl c1 c2 rest Hfed Hsnake Hhit)
        as (st' & -> & _).
      by eexists.
Qed.

(** For every configuration with two free cells some outcome of
    [Math.random] makes the tick return, whatever follows on the trace. *)
Lemma tick_can_complete (st : State) (c1 c2 : Vec) (rest : list Q) :
  (∀ s0 tl, snake st = s0 :: tl →
     let head := new_head s0 (validateTurn (dir st) (nextDir st)) in
     (key c1 ∉ occupied (set_snake (head :: snake st) st))
     ∧ (key c2 ∉ occupied (set_snake (head :: snake st) st))) →
  key c1 ≠ key c2 →
  ∃ rs, is_Some (tick (set_rand (rs ++ rest) st)).
Proof.
  intros Hfree Hne. destruct (snake st) as [|s0 tl] eqn:Hsnake.
  - exists []. unfold tick. simpl. rewrite Hsnake. by eexists.
  - exists (feed (new_head s0 (validateTurn (dir st) (nextDir st))) st c1 c2).
    apply (tick_completes _ c1 c2 rest).
    intros s0' tl' Hs. simpl in Hs. rewrite Hsnake in Hs.
    injection Hs as <- <-.
    destruct (Hfree s0 tl eq_refl) as [H1 H2]. simpl.
    by rewrite Hsnake.
Qed.

(** With every cell occupied no trace makes [randomEmptyCell] return. *)
Lemma randomEmptyCell_full (st : State) :
  (∀ rx ry, key (cell_of rx ry) ∈ occupied st) → randomEmptyCell st = None.
Proof.
  intros Hfull. unfold randomEmptyCell.
  by rewrite draw_loop_all_occupied.
Qed.

(** C1: in a running game whose body has no duplicate cell, [tick]
    returns when the random values are favourable, and the body after any
    completed [tick] has no duplicate cell either.  The body is unchanged
    on a hit; otherwise one cell that was not in the body is put in front,
    and the last cell is dropped unless that cell was the food. *)
Theorem tick_keeps_body_duplicate_free (st : State)
    (Hrun : phase st = Running) (Hnodup : NoDup (snake st)) :
  (∀ c1 c2 rest, fed st c1 c2 rest → is_Some (tick st))
  ∧ ∀ st', tick st = Some st' →
      NoDup (snake st')
      ∧ (snake st' = snake st
         ∨ ∃ head, (head ∉ snake st)
             ∧ (food st = Some head ∧ snake st' = head :: snake st
                ∨ food st ≠ Some head ∧ snake st' = pop (head :: snake st))).
Proof.
  split; [apply tick_completes|]. intros st' Htick.
  apply tick_inv in Htick as [->|(s0 & tl & Hsnake & Hhit & Hadv)].
  - split; [done|by left].
  - apply hits_false in Hhit as (_ & _ & Hfresh).
    apply advance_fields in Hadv as (Hbody & _).
    simpl in Hbody, Hfresh.
    assert (NoDup (new_head s0 (dir (turn st)) :: snake st)) as Hnew
      by by apply NoDup_cons.
    destruct (at_cell (food st) _) eqn:Hfood.
    + apply at_cell_true in Hfood. rewrite Hbody. split; [done|].
      right. eexists. split; [exact Hfresh|]. by left.
    + apply at_cell_false in Hfood. rewrite Hbody. split.
      * eapply sublist_NoDup; [exact Hnew|apply pop_sublist].
      * right. eexists. split; [exact Hfresh|]. by right.
Qed.

Lemma before_food_fed : fed before_food (mkVec 7 5) (mkVec 8 8) [].
Proof.
  intros s0 tl Hs. injection Hs as <- <-. split; [reflexivity|].
  split; [|split; [|discriminate]];
    refine (bool_decide_unpack _ _); vm_compute; exact I.
Qed.

Lemma tick_keeps_body_duplicate_free_witness :
  is_Some (tick before_food) ∧ NoDup (snake after_food).
Proof.
  destruct (tick_keeps_body_duplicate_free before_food) as [Hreturns Hbody].
  - reflexivity.
  - refine (bool_decide_unpack _ _). vm_compute. exact I.
  - split.
    + exact (Hreturns _ _ _ before_food_fed).
    + apply (Hbody after_food). vm_compute. reflexivity.
Defined.

(** ** Placement *)

Lemma placed_ext (st st' : State) :
  snake st' = snake st → obstacles st' = obstacles st →
  food st' = food st → poison st' = poison st →
  placed st → placed st'.
Proof.
  intros Hs Ho Hf Hp [H1 H2 H3 H4 H5 H6 H7].
  constructor; rewrite ?Hs, ?Ho, ?Hf, ?Hp; done.
Qed.

Lemma placed_shrink (st : State) (l : list Vec) :
  (∀ s, s ∈ l → s ∈ snake st) → placed st → placed (set_snake l st).
Proof.
  intros Hsub [H1 H2 H3 H4 H5 H6 H7]. constructor; simpl; eauto.
  - intros f Hf Hin. by eapply H3, Hsub.
  - intros p Hp Hin. by eapply H5, Hsub.
Qed.

(** After the head is put in front and food and poison are dealt with
    (lines 200-229), the four kinds of cells are apart again. *)
Lemma placed_eaten (head : Vec) (st : State) (g : bool) (st2 : State) :
  placed st → hits head st = false →
  eat_food head (set_snake (head :: snake st) st) = Some (g, st2) →
  placed (eat_poison head st2).
Proof.
  intros [H1 H2 H3 H4 H5 H6 H7] (_ & Hobs & Hbody)%hits_false Hfood.
  apply eat_food_inv in Hfood
    as [(Hf & -> & ->)|(Hf & -> & v & rs & Hv & ->)].
  - destruct (eat_poison_cases head (set_snake (head :: snake st) st))
      as [[Hp ->]|[Hp ->]]; simpl in *; constructor; simpl; try done.
    + intros s [->|Hs]%elem_of_cons; eauto.
    + intros f Hf' [->|Hin]%elem_of_cons; [done|by eapply H3].
    + intros p Hp' [->|Hin]%elem_of_cons; [done|by eapply H5].
    + intros s [->|Hs]%elem_of_cons; eauto.
    + intros f Hf' [->|Hin]%elem_of_cons; [done|by eapply H3].
  - apply offers_free, not_occupied in Hv
      as (Hvb & Hvo & Hvf & Hvp & _). simpl in *.
    match goal with
    | |- placed (eat_poison head ?s) =>
        destruct (eat_poison_cases head s) as [[Hp ->]|[Hp ->]]
    end; simpl in *; constructor; simpl; try done.
    + intros s [->|Hs]%elem_of_cons; eauto.
    + by intros f [= <-].
    + by intros f [= <-].
    + intros p Hp' [->|Hin]%elem_of_cons; [done|by eapply H5].
    + intros f p [= <-] Hp' ->. done.
    + intros s [->|Hs]%elem_of_cons; eauto.
    + by intros f [= <-].
    + by intros f [= <-].
Qed.

Lemma placed_spawn_obstacle (st st' : State) :
  placed st → spawn_obstacle st = Some st' → placed st'.
Proof.
  intros Hpl [->|(_ & o & rs & Ho & ->)]%spawn_obstacle_inv; [done|].
  destruct Hpl as [H1 H2 H3 H4 H5 H6 H7].
  apply offers_free, not_occupied in Ho as (_ & _ & _ & _ & Hb & Hf & Hp).
  constructor; simpl; try done.
  - intros s Hs [Heq%elem_of_singleton|Hin]%elem_of_union;
      [by eapply Hb|by eapply H2].
  - intros f Hf' [Heq%elem_of_singleton|Hin]%elem_of_union;
      [by eapply Hf|by eapply H4].
  - intros p Hp' [Heq%elem_of_singleton|Hin]%elem_of_union;
      [by eapply Hp|by eapply H6].
Qed.

Lemma placed_spawn_poison (st st' : State) :
  placed st → spawn_poison st = Some st' → placed st'.
Proof.
  intros Hpl [[_ ->]|(_ & r & rs & _
                       & [[_ ->]|(_ & v & rs' & Hv & ->)])]%spawn_poison_inv;
    [done| |]; destruct Hpl as [H1 H2 H3 H4 H5 H6 H7].
  - constructor; simpl; done.
  - apply offers_free, not_occupied in Hv as (Hvb & Hvo & Hvf & _).
    simpl in *. constructor; simpl; try done.
    + by intros p [= <-].
    + by intros p [= <-].
    + intros f p Hf [= <-] ->. done.
Qed.

Lemma placed_advance (head : Vec) (st st' : State) :
  placed st → hits head st = false → advance head st = Some st' →
  placed st'.
Proof.
  intros Hpl Hhit (g & st2 & st3 & Hfood & Hobs & Hpoison)%advance_inv.
  pose proof (placed_eaten head st g st2 Hpl Hhit Hfood) as Hpl2.
  eapply placed_spawn_poison; [|exact Hpoison].
  eapply placed_spawn_obstacle; [|exact Hobs].
  assert (snake (eat_poison head st2) = head :: snake st) as Hsn.
  { rewrite eat_poison_snake.
    by apply eat_food_inv in Hfood
      as [(_ & _ & ->)|(_ & _ & v & rs & _ & ->)]. }
  destruct g.
  - by eapply placed_ext; [..|exact Hpl2].
  - eapply placed_ext with (st := set_snake _ (eat_poison head st2));
      [done..|].
    apply placed_shrink; [|done].
    intros s Hs. rewrite Hsn. eapply elem_of_sublist; [exact Hs|].
    apply pop_sublist.
Qed.

Lemma placed_endGame (r : Reason) (st : State) : placed st → placed (endGame r st).
Proof. by apply placed_ext. Qed.

Lemma placed_turn (st : State) : placed st → placed (turn st).
Proof. by apply placed_ext. Qed.

Lemma placed_tick (st st' : State) : placed st → tick st = Some st' → placed st'.
Proof.
  intros Hpl [->|(s0 & tl & _ & Hhit & Hadv)]%tick_inv.
  - by apply placed_endGame, placed_turn.
  - eapply placed_advance; [|exact Hhit|exact Hadv]. by apply placed_turn.
Qed.

Lemma start_body_off_border :
  ∀ s, s ∈ [mkVec 13 10; mkVec 12 10; mkVec 11 10; mkVec 10 10] →
       key s ∉ start_obstacles.
Proof.
  intros s Hs. repeat (apply elem_of_cons in Hs as [->|Hs]);
    [refine (bool_decide_unpack _ _); vm_compute; exact I..|].
  exfalso. exact (proj1 (elem_of_nil s) Hs).
Qed.

Lemma placed_start (st st' : State) : start st = Some st' → placed st'.
Proof.
  unfold start.
  destruct (randomEmptyCell _) as [[f st1]|] eqn:R; [|discriminate].
  intros H. injection H as <-.
  apply randomEmptyCell_inv in R as [Hf ->].
  apply offers_free, not_occupied in Hf as (Hfb & Hfo & _).
  constructor.
  - by eexists.
  - exact start_body_off_border.
  - intros f' [= <-]. exact Hfb.
  - intros f' [= <-]. exact Hfo.
  - intros p [=].
  - intros p [=].
  - intros f' p _ [=].
Qed.

Lemma apart_spec (c : option Vec) (st : State) (v : Vec) :
  apart c st = true → c = Some v → (v ∉ snake st) ∧ (key v ∉ obstacles st).
Proof.
  intros H ->. simpl in H.
  apply andb_true_iff in H as [H1 H2].
  apply negb_true_iff, bool_decide_eq_false in H1, H2. done.
Qed.

Lemma placedb_sound (st : State) : placedb st = true → placed st.
Proof.
  unfold placedb. rewrite !andb_true_iff.
  intros ((((Hfood & Hbody) & Hf) & Hp) & Hfp).
  apply bool_decide_eq_true in Hfood.
  apply negb_true_iff, bool_decide_eq_false in Hfp.
  rewrite forallb_forall in Hbody.
  constructor; try done.
  - intros s Hs. apply list_elem_of_In, Hbody, negb_true_iff in Hs.
    by apply bool_decide_eq_false in Hs.
  - intros f Hf'. by apply (apart_spec _ _ _ Hf Hf').
  - intros f Hf'. by apply (apart_spec _ _ _ Hf Hf').
  - intros q Hq. by apply (apart_spec _ _ _ Hp Hq).
  - intros q Hq. by apply (apart_spec _ _ _ Hp Hq).
  - intros f q Hf' Hq ->. apply Hfp. rewrite Hf', Hq. eauto.
Qed.

Lemma start_completes (st : State) (c : Vec) (rest : list Q) :
  rand st = draws_of c ++ rest → key c ∉ occupied (start_layout st) →
  ∃ st', start st = Some st' ∧ food st' = Some c ∧ rand st' = rest.
Proof.
  intros Hrand Hfree. unfold start.
  erewrite randomEmptyCell_first; [|exact Hrand|exact Hfree].
  simpl. by eexists.
Qed.

Lemma start_phase (st st' : State) : start st = Some st' → phase st' = Running.
Proof.
  unfold start.
  destruct (randomEmptyCell _) as [[f st1]|] eqn:R; [|discriminate].
  intros H. by injection H as <-.
Qed.

(** C10: [start] returns when the random values offer a free cell, and
    after it the game is running, a food cell is present and the body
    cells, the obstacle cells, the food cell and the poison cell (when
    there is one) are pairwise different; [tick] returns when the random
    values are favourable, and every completed [tick] of a running game
    keeps all that. *)
Theorem start_and_tick_keep_cells_apart (st : State) :
  (∀ c rest, rand st = draws_of c ++ rest →
             key c ∉ occupied (start_layout st) → is_Some (start st))
  ∧ (∀ st', start st = Some st' →
            phase st' = Running ∧ is_Some (food st') ∧ placed st')
  ∧ (∀ c1 c2 rest, fed st c1 c2 rest → is_Some (tick st))
  ∧ (∀ st', phase st = Running → placed st → tick st = Some st' →
            is_Some (food st') ∧ placed st').
Proof.
  split; [|split; [|split]].
  - intros c rest Hrand Hfree.
    destruct (start_completes st c rest Hrand Hfree) as (st' & -> & _).
    by eexists.
  - intros st' Hstart. pose proof (placed_start st st' Hstart) as Hpl.
    split; [by eapply start_phase|]. split; [apply Hpl|exact Hpl].
  - apply tick_completes.
  - intros st' _ Hpl Htick. pose proof (placed_tick st st' Hpl Htick) as Hpl'.
    split; [apply Hpl'|exact Hpl'].
Qed.

Lemma start_and_tick_keep_cells_apart_witness :
  start (idle_state [1 # 2; 1 # 2; 7 # 28; 5 # 20]%Q) = Some before_food
  ∧ tick before_food = Some after_food
  ∧ placed before_food ∧ placed after_food
  ∧ food after_food = Some (mkVec 7 5).
Proof.
  assert (start (idle_state [1 # 2; 1 # 2; 7 # 28; 5 # 20]%Q)
          = Some before_food) as Hstart by (vm_compute; reflexivity).
  assert (tick before_food = Some after_food) as Htick
    by (vm_compute; reflexivity).
  destruct (start_and_tick_keep_cells_apart
              (idle_state [1 # 2; 1 # 2; 7 # 28; 5 # 20]%Q))
    as (_ & Hstarted & _).
  destruct (Hstarted before_food Hstart) as (Hrun & _ & Hbefore).
  destruct (start_and_tick_keep_cells_apart before_food)
    as (_ & _ & _ & Hticked).
  destruct (Hticked after_food Hrun Hbefore Htick) as [_ Hafter].
  split; [exact Hstart|]. split; [exact Htick|]. split; [exact Hbefore|].
  split; [exact Hafter|]. reflexivity.
Defined.

(** The invariant along any sequence of events that begins with a
    start. *)
Lemma fire_placed (e : Event) (st st' : State) :
  placed st → fire e st = Some st' → placed st'.
Proof.
  intros Hpl.
  assert (∀ secs, placed (countdown secs st)) as Hcount.
  { intros secs. unfold countdown.
    destruct (_ =? 0); by eapply placed_ext; [..|exact Hpl]. }
  destruct e as [|d|secs| |secs]; simpl; destruct (is_running st);
    intros H; try (injection H as <-); try done.
  - by eapply placed_start.
  - by eapply placed_ext; [..|exact Hpl].
  - by eapply placed_ext; [..|exact Hpl].
  - by eapply placed_tick.
  - by eapply placed_tick; [apply (Hcount secs)|].
Qed.

Lemma run_placed (es : list Event) (st st' : State) :
  placed st → run es st = Some st' → placed st'.
Proof.
  revert st. induction es as [|e es IH]; intros st Hpl; simpl.
  - by intros [= <-].
  - destruct (fire e st) as [st1|] eqn:Hfire; simpl; [|done].
    apply IH. by eapply fire_placed.
Qed.

Lemma run_after_start_placed (es : list Event) (st st' : State) :
  is_running st = false → run (EvStart :: es) st = Some st' → placed st'.
Proof.
  intros Hidle. simpl. rewrite Hidle.
  destruct (start st) as [st1|] eqn:Hstart; simpl; [|done].
  apply run_placed. by eapply placed_start.
Qed.

(** ** Food and poison *)

Lemma placed_head_free (st : State) (head : Vec) :
  placed st → within head = true →
  food st = Some head ∨ poison st = Some head →
  hits head (turn st) = false.
Proof.
  intros Hpl Hin Hcell. apply hits_false. split; [done|].
  change (obstacles (turn st)) with (obstacles st).
  change (snake (turn st)) with (snake st).
  destruct Hcell as [Hf|Hp].
  - split; [by eapply placed_food_obstacles|by eapply placed_food_body].
  - split; [by eapply placed_poison_obstacles|by eapply placed_poison_body].
Qed.

(** C3: in a running game with the cells apart, when the new head is the
    food cell (a cell of the grid), [tick] returns when the random values
    are favourable, and any completed [tick] adds exactly 5 to the score,
    makes the body one cell longer, lowers the tick interval by 4 but not
    below [MIN_SPEED_MS], and leaves the food on another cell, which is
    neither a body cell (of the grown body), nor an obstacle, nor the
    poison cell. *)
Theorem tick_eats_food (st : State) (s0 : Vec) (tl : list Vec)
    (Hrun : phase st = Running) (Hpl : placed st)
    (Hsnake : snake st = s0 :: tl)
    (Hfood : food st = Some (new_head s0 (validateTurn (dir st) (nextDir st))))
    (Hin : within (new_head s0 (validateTurn (dir st) (nextDir st))) = true) :
  (∀ c1 c2 rest, fed st c1 c2 rest →
     ∃ st', tick st = Some st' ∧ food st' = Some c1)
  ∧ ∀ st', tick st = Some st' →
      score st' = score st + 5
      ∧ length (snake st') = S (length (snake st))
      ∧ tickMs st' = Z.max MIN_SPEED_MS (tickMs st - 4)
      ∧ ∃ v, food st' = Some v
          ∧ v ≠ new_head s0 (validateTurn (dir st) (nextDir st))
          ∧ (v ∉ snake st') ∧ (key v ∉ obstacles st') ∧ poison st' ≠ Some v.
Proof.
  pose proof (placed_head_free st _ Hpl Hin (or_introl Hfood)) as Hhit.
  split.
  { intros c1 c2 rest Hfed.
    destruct (tick_moves st s0 tl c1 c2 rest Hfed Hsnake Hhit)
      as (st' & Htick & _ & Hf).
    exists st'. split; [done|].
    by rewrite (proj2 (at_cell_true _ _) Hfood) in Hf. }
  intros st' Htick.
  pose proof (placed_tick st st' Hpl Htick) as Hpl'.
  unfold tick in Htick. change (snake (turn st)) with (snake st) in Htick.
  rewrite Hsnake in Htick.
  change (dir (turn st)) with (validateTurn (dir st) (nextDir st)) in Htick.
  rewrite Hhit in Htick.
  apply advance_fields in Htick as (Hbody & Hscore & Hms & _).
  simpl in Hbody, Hscore, Hms.
  assert (at_cell (poison st) (new_head s0 (validateTurn (dir st) (nextDir st)))
          = false) as Hnp.
  { apply at_cell_false. intros Hp.
    by eapply (placed_food_poison st Hpl). }
  apply at_cell_true in Hfood. rewrite Hfood in *. rewrite Hnp in *.
  split; [lia|]. split; [by rewrite Hbody|]. split; [done|].
  destruct (placed_food st' Hpl') as [v Hv]. exists v.
  split; [done|].
  pose proof (placed_food_body st' Hpl' v Hv) as Hvb.
  split; [|split; [done|split]].
  - intros ->. apply Hvb. rewrite Hbody. by left.
  - by eapply placed_food_obstacles.
  - intros Hp. by eapply (placed_food_poison st' Hpl').
Qed.

Lemma tick_eats_food_witness :
  tick before_food = Some after_food
  ∧ score after_food = score before_food + 5
  ∧ length (snake after_food) = S (length (snake before_food))
  ∧ tickMs after_food = Z.max MIN_SPEED_MS (tickMs before_food - 4)
  ∧ food after_food = Some (mkVec 7 5).
Proof.
  destruct (tick_eats_food before_food (mkVec 13 10)
              [mkVec 12 10; mkVec 11 10; mkVec 10 10])
    as [Hreturns Hresult].
  - reflexivity.
  - apply placedb_sound. vm_compute. reflexivity.
  - reflexivity.
  - reflexivity.
  - reflexivity.
  - destruct (Hreturns _ _ _ before_food_fed) as (st' & Htick & Hf).
    assert (tick before_food = Some after_food) as Hafter
      by (vm_compute; reflexivity).
    destruct (Hresult after_food Hafter) as (Hs & Hl & Hms & _).
    split; [exact Hafter|]. split; [exact Hs|]. split; [exact Hl|].
    split; [exact Hms|]. reflexivity.
Defined.

(** Without a multiple of [POISON_INTERVAL_TICKS] the poison cell only
    changes by being eaten. *)
Lemma advance_poison (head : Vec) (st st' : State) :
  advance head st = Some st' →
  Z.rem (tickCount st + 1) POISON_INTERVAL_TICKS ≠ 0 →
  poison st' = if at_cell (poison st) head then None else poison st.
Proof.
  intros H Hnot. advance_cases H; try done.
  all: repeat match goal with
         | H : poison _ = Some _ |- _ => apply at_cell_true in H; rewrite H
         | H : poison _ ≠ Some _ |- _ => apply at_cell_false in H; rewrite H
         end; done.
Qed.

(** The game of [before_poison_46] is played from the idle application. *)
Lemma before_poison_46_reached :
  run (EvStart :: moves path45) (idle_state trace46) = Some before_poison_46.
Proof. vm_compute. reflexivity. Qed.

Lemma before_poison_46_placed : placed before_poison_46.
Proof.
  eapply run_after_start_placed; [|exact before_poison_46_reached]. reflexivity.
Qed.

(** C4 as stated fails: on the 46th tick the snake eats the poison at
    (22,5), food being elsewhere, and the same tick, whose counter
    reaches a multiple of 23, puts a new poison at (7,5). *)
Lemma poison_respawns_in_same_tick :
  phase before_poison_46 = Running
  ∧ snake before_poison_46 = [mkVec 21 5; mkVec 20 5; mkVec 19 5; mkVec 18 5]
  ∧ poison before_poison_46
    = Some (new_head (mkVec 21 5)
              (validateTurn (dir before_poison_46) (nextDir before_poison_46)))
  ∧ food before_poison_46
    ≠ Some (new_head (mkVec 21 5)
              (validateTurn (dir before_poison_46) (nextDir before_poison_46)))
  ∧ tick before_poison_46 = Some after_poison_46
  ∧ score after_poison_46 = score before_poison_46 - 7
  ∧ poison after_poison_46 = Some (mkVec 7 5)
  ∧ poison after_poison_46 ≠ None.
Proof.
  split; [reflexivity|]. split; [reflexivity|]. split; [reflexivity|].
  split; [discriminate|]. split; [vm_compute; reflexivity|].
  split; [reflexivity|]. split; [reflexivity|discriminate].
Qed.

(** C4, amended: in a running game with the cells apart, when the new
    head is the poison cell (a cell of the grid, hence not the food
    cell), [tick] returns when the random values are favourable, and any
    completed [tick] takes exactly 7 from the score, lowers the tick
    interval by 8 but not below [MIN_SPEED_MS], keeps the length of the
    body, and removes the poison from the eaten cell; the poison is
    absent after the tick unless the tick counter reaches a multiple of
    [POISON_INTERVAL_TICKS] in this tick. *)
Theorem tick_eats_poison (st : State) (s0 : Vec) (tl : list Vec)
    (Hrun : phase st = Running) (Hpl : placed st)
    (Hsnake : snake st = s0 :: tl)
    (Hpoison : poison st
               = Some (new_head s0 (validateTurn (dir st) (nextDir st))))
    (Hin : within (new_head s0 (validateTurn (dir st) (nextDir st))) = true) :
  food st ≠ Some (new_head s0 (validateTurn (dir st) (nextDir st)))
  ∧ (∀ c1 c2 rest, fed st c1 c2 rest → is_Some (tick st))
  ∧ ∀ st', tick st = Some st' →
      score st' = score st - 7
      ∧ tickMs st' = Z.max MIN_SPEED_MS (tickMs st - 8)
      ∧ length (snake st') = length (snake st)
      ∧ poison st' ≠ Some (new_head s0 (validateTurn (dir st) (nextDir st)))
      ∧ (Z.rem (tickCount st + 1) POISON_INTERVAL_TICKS ≠ 0 →
         poison st' = None).
Proof.
  assert (food st ≠ Some (new_head s0 (validateTurn (dir st) (nextDir st))))
    as Hnf.
  { intros Hf. by eapply (placed_food_poison st Hpl). }
  split; [done|]. split; [apply tick_completes|]. intros st' Htick.
  pose proof (placed_tick st st' Hpl Htick) as Hpl'.
  pose proof (placed_head_free st _ Hpl Hin (or_intror Hpoison)) as Hhit.
  unfold tick in Htick. change (snake (turn st)) with (snake st) in Htick.
  rewrite Hsnake in Htick.
  change (dir (turn st)) with (validateTurn (dir st) (nextDir st)) in Htick.
  rewrite Hhit in Htick.
  pose proof (advance_poison _ _ _ Htick) as Hgone.
  apply advance_fields in Htick as (Hbody & Hscore & Hms & _).
  simpl in Hbody, Hscore, Hms, Hgone.
  apply at_cell_false in Hnf. apply at_cell_true in Hpoison.
  rewrite Hnf in *. rewrite Hpoison in *.
  split; [lia|]. split; [done|].
  split; [by rewrite Hbody, Hsnake, length_pop_cons|].
  split; [|done].
  intros Hp. apply (placed_poison_body st' Hpl' _ Hp).
  rewrite Hbody, Hsnake, pop_cons_cons. by left.
Qed.

Lemma before_poison_30_fed : fed before_poison_30 (mkVec 7 5) (mkVec 8 8) [].
Proof.
  intros s0 tl Hs. injection Hs as <- <-. split; [reflexivity|].
  split; [|split; [|discriminate]];
    refine (bool_decide_unpack _ _); vm_compute; exact I.
Qed.

Lemma tick_eats_poison_witness :
  tick before_poison_30 = Some after_poison_30
  ∧ score after_poison_30 = score before_poison_30 - 7
  ∧ tickMs after_poison_30 = Z.max MIN_SPEED_MS (tickMs before_poison_30 - 8)
  ∧ length (snake after_poison_30) = length (snake before_poison_30)
  ∧ poison after_poison_30 = None.
Proof.
  destruct (tick_eats_poison before_poison_30 (mkVec 13 10)
              [mkVec 12 10; mkVec 11 10; mkVec 10 10])
    as (_ & Hreturns & Hresult).
  - reflexivity.
  - apply placedb_sound. vm_compute. reflexivity.
  - reflexivity.
  - reflexivity.
  - reflexivity.
  - pose proof (Hreturns _ _ _ before_poison_30_fed) as Hsome.
    assert (tick before_poison_30 = Some after_poison_30) as Hafter
      by (vm_compute; reflexivity).
    destruct (Hresult after_poison_30 Hafter) as (Hs & Hms & Hl & _ & Hnone).
    split; [exact Hafter|]. split; [exact Hs|]. split; [exact Hms|].
    split; [exact Hl|]. apply Hnone. discriminate.
Defined.

(** ** Turning *)

Lemma tick_dir (st st' : State) :
  tick st = Some st' → dir st' = validateTurn (dir st) (nextDir st).
Proof.
  intros [->|(s0 & tl & _ & _ & Hadv)]%tick_inv; [done|].
  by apply advance_fields in Hadv as (_ & _ & _ & _ & _ & _ & -> & _).
Qed.

(** C7: for an active direction [d] and a pending direction [p], the
    resolution gives [d] when [p] is the exact opposite of [d] and [p] in
    every other case; the result is never the opposite of [d], and it is
    the direction in force after the tick. *)
Theorem validateTurn_never_reverses (d p : Vec) (Hd : is_dir d) :
  (p = opposite d ∧ validateTurn d p = d
   ∨ p ≠ opposite d ∧ validateTurn d p = p)
  ∧ validateTurn d p ≠ opposite d
  ∧ ∀ st st', dir st = d → nextDir st = p → tick st = Some st' →
              dir st' = validateTurn d p ∧ dir st' ≠ opposite d.
Proof.
  assert (validateTurn d p ≠ opposite d) as Hne.
  { destruct (validateTurn_cases d p) as [[_ ->]|[Hp ->]]; [|done].
    by apply is_dir_not_opposite. }
  split; [apply validateTurn_cases|]. split; [done|].
  intros st st' <- <- Htick. apply tick_dir in Htick. by rewrite Htick.
Qed.

Lemma validateTurn_never_reverses_witness :
  (ArrowLeft = opposite ArrowRight ∧ validateTurn ArrowRight ArrowLeft = ArrowRight
   ∨ ArrowLeft ≠ opposite ArrowRight
     ∧ validateTurn ArrowRight ArrowLeft = ArrowLeft)
  ∧ validateTurn ArrowRight ArrowLeft ≠ opposite ArrowRight
  ∧ ∀ st st', dir st = ArrowRight → nextDir st = ArrowLeft →
              tick st = Some st' →
              dir st' = validateTurn ArrowRight ArrowLeft
              ∧ dir st' ≠ opposite ArrowRight.
Proof.
  apply (validateTurn_never_reverses ArrowRight ArrowLeft).
  right. right. right. reflexivity.
Defined.

(** A reversal is refused, a quarter turn is taken. *)
Example validateTurn_examples :
  validateTurn ArrowRight ArrowLeft = ArrowRight
  ∧ validateTurn ArrowRight ArrowUp = ArrowUp
  ∧ validateTurn ArrowUp ArrowDown = ArrowUp
  ∧ validateTurn ArrowDown ArrowDown = ArrowDown.
Proof. repeat split. Qed.

(** ** The best score *)

Lemma start_best (st st' : State) : start st = Some st' → best st' = best st.
Proof.
  unfold start.
  destruct (randomEmptyCell _) as [[f st1]|] eqn:R; simpl; [|done].
  intros H. injection H as <-.
  by apply randomEmptyCell_inv in R as [_ ->].
Qed.

(** A step of the game either leaves [best] alone or is a game end, which
    stores [Math.max] of the previous best and the final score. *)
Lemma fire_best (e : Event) (st st' : State) :
  fire e st = Some st' →
  best st' = best st ∧ (phase st = Running → phase st' = Running)
  ∨ best st' = Math_max (best st) (JInt (scoreRef st))
    ∧ storage st' = Some (String_of (best st')).
Proof.
  destruct e as [|d|secs| |secs]; simpl;
    destruct (is_running st) eqn:Hrun; intros H;
    try (injection H as <-; left; done).
  - left. split; [by eapply start_best|].
    intros Hp. unfold is_running in Hrun. by rewrite Hp in Hrun.
  - injection H as <-. unfold countdown.
    destruct (_ =? 0); [by right|by left].
  - apply tick_inv in H as [->|(s0 & tl & _ & _ & Hadv)]; [by right|].
    apply advance_fields in Hadv
      as (_ & _ & _ & _ & Hphase & Hbest & _).
    left. split; [done|]. intros Hp. by rewrite Hphase.
  - unfold countdown in H.
    destruct (_ =? 0);
      apply tick_inv in H as [->|(s0 & tl & _ & _ & Hadv)];
      try (apply advance_fields in Hadv
             as (_ & _ & _ & _ & Hphase & Hbest & _ & _ & _ & Hstore)).
    + right. simpl. destruct (best st) as [b|]; simpl; [|done].
      split; [f_equal; lia|done].
    + right. by rewrite Hbest, Hstore.
    + by right.
    + left. split; [done|]. intros Hp. by rewrite Hphase.
Qed.






(** Both ways a game ends go through [endGame]: a failed tick with reason
    hit, the countdown reaching zero with reason timeout. *)
Lemma game_ends (st : State) :
  phase st = Running →
  (∀ s0 tl, snake st = s0 :: tl →
     hits (new_head s0 (dir (turn st))) (turn st) = true →
     fire EvTick st = Some (endGame Hit (turn st)))
  ∧ (∀ secs, timeLeft st ≤ secs →
       fire (EvSecond secs) st = Some (set_timeLeft 0 (endGame Timeout st))).
Proof.
  intros Hrun. split.
  - intros s0 tl Hsnake Hhit. simpl. unfold is_running. rewrite Hrun.
    unfold tick. change (snake (turn st)) with (snake st).
    by rewrite Hsnake, Hhit.
  - intros secs Hle. simpl. unfold is_running. rewrite Hrun.
    unfold countdown. rewrite Z.max_l by lia. done.
Qed.

(** A best score that is NaN stays NaN: [Math.max] cannot repair it. *)
Lemma endGame_NaN (reason : Reason) (st : State) :
  best st = JNaN →
  best (endGame reason st) = JNaN ∧ storage (endGame reason st) = Some "NaN".
Proof. intros Hb. simpl. by rewrite Hb. Qed.

(** ** Reading the stored best score *)

Lemma digit_or_minus_plain (a : ascii) :
  digit_or_minus a = true → is_ws a = false ∧ a ≠ "+"%char.
Proof.
  destruct a as [[] [] [] [] [] [] [] []]; vm_compute; intros H;
    split; congruence.
Qed.

Lemma string_of_uint_chars (d : Decimal.uint) :
  all_chars digit_or_minus (NilEmpty.string_of_uint d) = true.
Proof. induction d; simpl; try done; by rewrite IHd. Qed.

Lemma Z_toString_chars (z : Z) : all_chars digit_or_minus (Z_toString z) = true.
Proof.
  unfold Z_toString.
  destruct (Z.to_int z) as [d|d]; destruct d; simpl; try done;
    apply string_of_uint_chars.
Qed.

Lemma Z_toString_nonempty (z : Z) : Z_toString z ≠ EmptyString.
Proof.
  unfold Z_toString. destruct z as [|p|p]; simpl; [done| |done].
  pose proof (Unsigned.to_uint_nonnil p) as Hnil.
  by destruct (Pos.to_uint p).
Qed.

Lemma ltrim_plain (s : string) :
  all_chars digit_or_minus s = true → ltrim s = s.
Proof.
  destruct s as [|a s]; simpl; [done|].
  intros [Ha _]%andb_true_iff.
  by destruct (digit_or_minus_plain a Ha) as [-> _].
Qed.

Lemma rtrim_plain (s : string) :
  all_chars digit_or_minus s = true → rtrim s = s.
Proof.
  induction s as [|a s IH]; simpl; [done|].
  intros [Ha Hs]%andb_true_iff. rewrite (IH Hs).
  destruct (digit_or_minus_plain a Ha) as [-> _]. by destruct s.
Qed.

Lemma parse_int_unsigned (a : ascii) (t : string) :
  a ≠ "+"%char →
  parse_int (String a t) = Z.of_int <$> NilZero.int_of_string (String a t).
Proof.
  intros Ha. destruct a as [[] [] [] [] [] [] [] []]; try reflexivity.
  by destruct Ha.
Qed.

(** What [endGame] writes is read back as the same number. *)
Lemma StringToNumber_toString (z : Z) :
  Z.abs z ≤ 2 ^ 53 → StringToNumber (Z_toString z) = Some (JInt z).
Proof.
  intros Hz. unfold StringToNumber, trim.
  rewrite ltrim_plain, rtrim_plain by apply Z_toString_chars.
  pose proof (Z_toString_chars z) as Hchars.
  pose proof (Z_toString_nonempty z) as Hne.
  destruct (Z_toString z) as [|a t] eqn:Hs; [done|].
  simpl in Hchars. apply andb_true_iff in Hchars as [Ha _].
  rewrite parse_int_unsigned by apply (digit_or_minus_plain a Ha).
  rewrite <- Hs. unfold Z_toString.
  rewrite NilZero.isi.
  - simpl. rewrite DecimalZ.of_to.
    by rewrite (proj2 (Z.leb_le _ _) Hz).
  - destruct z as [|q|q]; simpl; try done.
    intros [= H]. by apply (Unsigned.to_uint_nonnil q).
  - destruct z as [|q|q]; simpl; try done.
    intros [= H]. by apply (Unsigned.to_uint_nonnil q).
Qed.

Lemma rtrim_cons_plain (a : ascii) (s : string) :
  is_ws a = false → ∃ t, rtrim (String a s) = String a t.
Proof.
  intros Ha. simpl. rewrite Ha. destruct (rtrim s); eauto.
Qed.

(** A string whose first character starts no numeric literal converts to
    NaN. *)
Lemma StringToNumber_no_literal (a : ascii) (s : string) :
  starts_no_literal a = true → StringToNumber (String a s) = Some JNaN.
Proof.
  intros Ha.
  assert (is_ws a = false) as Hws.
  { unfold starts_no_literal in Ha. destruct (is_ws a); [|done].
    by rewrite andb_false_r in Ha. }
  unfold StringToNumber, trim. simpl ltrim. rewrite Hws.
  destruct (rtrim_cons_plain a s Hws) as [t ->].
  rewrite Ha.
  assert (parse_int (String a t) = None) as ->; [|done].
  destruct a as [[] [] [] [] [] [] [] []]; try discriminate Ha;
    simpl; by destruct (NilEmpty.uint_of_string t).
Qed.

(** C9 as stated fails: the stored text "NaN" (what [endGame] writes once
    the best score is NaN), like "abc", is no integer, and the startup
    read gives NaN for it, not 0. *)
Lemma best_init_unparseable_is_NaN :
  parse_int "NaN" = None
  ∧ best_init (Some "NaN") = Some JNaN
  ∧ best_init (Some "NaN") ≠ Some (JInt 0)
  ∧ best_init (Some "abc") = Some JNaN.
Proof. repeat split. discriminate. Qed.

(** C9, amended: the startup read of the stored best score gives the
    default 0 when the value is absent or the empty string; a stored
    decimal integer (as [endGame] writes it) gives that integer; any
    other text goes through the number conversion as it is, so that a
    text whose first character starts no numeric literal gives NaN. *)
Theorem best_init_cases :
  best_init None = Some (JInt 0)
  ∧ best_init (Some EmptyString) = Some (JInt 0)
  ∧ (∀ z, Z.abs z ≤ 2 ^ 53 → best_init (Some (Z_toString z)) = Some (JInt z))
  ∧ (∀ a s, best_init (Some (String a s)) = StringToNumber (String a s))
  ∧ (∀ a s, starts_no_literal a = true →
            best_init (Some (String a s)) = Some JNaN).
Proof.
  split; [done|]. split; [done|]. split; [|split].
  - intros z Hz. pose proof (Z_toString_nonempty z) as Hne.
    unfold best_init, or_zero.
    destruct (Z_toString z) as [|a t] eqn:Hs; [done|].
    simpl. rewrite <- Hs. by apply StringToNumber_toString.
  - done.
  - intros a s Ha. by apply StringToNumber_no_literal.
Qed.

(** ** Cells stay in the grid *)

Lemma Qfloor_scaled (r : Q) (n : Z) :
  0 < n → (0 <= r)%Q → (r < 1)%Q →
  0 ≤ Qfloor (r * inject_Z n) < n.
Proof.
  intros Hn H0 H1. split.
  - change 0 with (Qfloor 0). apply Qfloor_resp_le.
    apply Qmult_le_0_compat; [done|].
    change 0%Q with (inject_Z 0). rewrite <- Zle_Qle. lia.
  - rewrite Zlt_Qlt. eapply Qle_lt_trans; [apply Qfloor_le|].
    rewrite <- (Qmult_1_l (inject_Z n)) at 2.
    apply Qmult_lt_compat_r; [|done].
    change 0%Q with (inject_Z 0). rewrite <- Zlt_Qlt. lia.
Qed.

Lemma cell_of_within (rx ry : Q) :
  (0 <= rx)%Q → (rx < 1)%Q → (0 <= ry)%Q → (ry < 1)%Q →
  within (cell_of rx ry) = true.
Proof.
  intros Hx0 Hx1 Hy0 Hy1. unfold within, cell_of. cbn [x y].
  pose proof (Qfloor_scaled rx GRID_COLS eq_refl Hx0 Hx1).
  pose proof (Qfloor_scaled ry GRID_ROWS eq_refl Hy0 Hy1).
  rewrite !andb_true_iff, !Z.leb_le, !Z.ltb_lt.
  unfold GRID_COLS, GRID_ROWS in *. lia.
Qed.

Lemma offers_unit (occ : gset string) (rs : list Q) (v : Vec) (rs' : list Q) :
  unit_trace rs → offers occ rs v rs' → within v = true ∧ unit_trace rs'.
Proof.
  intros Hunit Hoff. induction Hoff as [rx ry rs _|rx ry rs v rs' _ _ IH];
    apply Forall_cons in Hunit as [[Hx0 Hx1] Hunit];
    apply Forall_cons in Hunit as [[Hy0 Hy1] Hunit].
  - split; [by apply cell_of_within|done].
  - by apply IH.
Qed.

Lemma in_grid_start (st st' : State) :
  unit_trace (rand st) → start st = Some st' → in_grid st'.
Proof.
  intros Hunit. unfold start.
  destruct (randomEmptyCell _) as [[f st1]|] eqn:R; [|discriminate].
  intros H. injection H as <-.
  apply randomEmptyCell_inv in R as [Hf ->].
  apply offers_unit in Hf as [Hin Hunit']; [|exact Hunit].
  constructor.
  - intros s Hs. simpl in Hs.
    repeat (apply elem_of_cons in Hs as [->|Hs]); try reflexivity.
    exfalso. exact (proj1 (elem_of_nil s) Hs).
  - intros f' [= <-]. exact Hin.
  - intros p [=].
  - exact Hunit'.
Qed.

Lemma in_grid_advance (head : Vec) (st st' : State) :
  in_grid st → within head = true → advance head st = Some st' →
  in_grid st'.
Proof.
  intros [Hb Hf Hp Ht] Hin H.
  assert (∀ s, s ∈ head :: snake st → within s = true) as Hb1.
  { intros s [->|Hs]%elem_of_cons; auto. }
  assert (∀ s, s ∈ pop (head :: snake st) → within s = true) as Hb2.
  { intros s Hs. apply Hb1. eapply elem_of_sublist; [exact Hs|].
    apply pop_sublist. }
  advance_cases H.
  all: repeat (unfold unit_trace in *;
               match goal with
               | Hu : Forall _ ?rs, Ho : offers _ ?rs _ _ |- _ =>
                   apply (offers_unit _ _ _ _ Hu) in Ho as [? ?]
               | Hu : Forall _ ?rs, Hr : ?rs = _ :: _ |- _ =>
                   rewrite Hr in Hu; apply Forall_cons in Hu as [_ ?]
               end).
  all: constructor; simpl; unfold unit_trace in *; try done.
  all: by intros ? [= <-].
Qed.

Lemma in_grid_tick (st st' : State) : in_grid st → tick st = Some st' → in_grid st'.
Proof.
  intros Hg [->|(s0 & tl & _ & Hhit & Hadv)]%tick_inv.
  - by destruct Hg.
  - apply hits_false in Hhit as (Hin & _).
    eapply in_grid_advance; [|exact Hin|exact Hadv]. by destruct Hg.
Qed.

(** In a game played from [start] on values of [Math.random()], the food
    and the poison are cells of the grid: a head that reaches one of them
    is inside the grid. *)
Lemma in_grid_fire (e : Event) (st st' : State) :
  in_grid st → fire e st = Some st' → in_grid st'.
Proof.
  intros Hg.
  assert (∀ secs, in_grid (countdown secs st)) as Hcount.
  { intros secs. unfold countdown. destruct (_ =? 0); by destruct Hg. }
  destruct e as [|d|secs| |secs]; simpl; destruct (is_running st);
    intros H; try (injection H as <-); try done.
  - eapply in_grid_start; [|exact H]. by destruct Hg.
  - by destruct Hg.
  - by destruct Hg.
  - by eapply in_grid_tick.
  - by eapply in_grid_tick; [apply (Hcount secs)|].
Qed.

(** * Further properties of the code *)

(** ** Keys of cells *)

Lemma digit_or_minus_no_comma (a : ascii) :
  digit_or_minus a = true → Ascii.eqb a "," = false.
Proof.
  destruct a as [[] [] [] [] [] [] [] []]; vm_compute; congruence.
Qed.

Lemma split_comma_plain (s : string) :
  all_chars digit_or_minus s = true → split_comma s = [s].
Proof.
  induction s as [|a s IH]; simpl; [done|].
  intros [Ha Hs]%andb_true_iff.
  by rewrite (digit_or_minus_no_comma a Ha), (IH Hs).
Qed.

Lemma split_comma_app (s t : string) :
  all_chars digit_or_minus s = true →
  split_comma (s +:+ "," +:+ t) = s :: split_comma t.
Proof.
  induction s as [|a s IH]; simpl; [done|].
  intros [Ha Hs]%andb_true_iff.
  rewrite (digit_or_minus_no_comma a Ha).
  change (String.append s (String "," t)) with (s +:+ "," +:+ t).
  by rewrite (IH Hs).
Qed.

Lemma split_comma_key (v : Vec) :
  split_comma (key v) = [Z_toString (x v); Z_toString (y v)].
Proof.
  unfold key. rewrite split_comma_app by apply Z_toString_chars.
  by rewrite split_comma_plain by apply Z_toString_chars.
Qed.

Lemma Z_toString_inj (a b : Z) : Z_toString a = Z_toString b → a = b.
Proof.
  intros H. apply DecimalZ.to_int_inj.
  assert (∀ z, NilZero.int_of_string (Z_toString z) = Some (Z.to_int z)) as Hp.
  { intros z. unfold Z_toString. apply NilZero.isi.
    - destruct z as [|q|q]; simpl; try done.
      intros [= E]. by apply (Unsigned.to_uint_nonnil q).
    - destruct z as [|q|q]; simpl; try done.
      intros [= E]. by apply (Unsigned.to_uint_nonnil q). }
  pose proof (Hp a) as Ha. rewrite H, Hp in Ha. by injection Ha.
Qed.

Lemma key_inj (v w : Vec) : key v = key w → v = w.
Proof.
  intros H. apply (f_equal split_comma) in H.
  rewrite !split_comma_key in H. injection H as Hx Hy.
  apply Z_toString_inj in Hx, Hy. destruct v, w. simpl in *. by subst.
Qed.

(** X1: [key] gives different cells different strings, so membership of
    a key in the obstacle set or in [occupied] is membership of the cell:
    a cell is rejected by [randomEmptyCell] exactly when it is a body
    cell, an obstacle cell, the food or the poison. *)
Theorem key_separates_cells (v w : Vec) (st : State) :
  (key v = key w ↔ v = w)
  ∧ (key v ∈ occupied st
     ↔ v ∈ snake st ∨ key v ∈ obstacles st ∨ food st = Some v
       ∨ poison st = Some v).
Proof.
  split.
  - split; [apply key_inj|by intros ->].
  - rewrite occupied_spec. split.
    + intros [(s & Hs & ->%key_inj)|[Ho|[(f & Hf & ->%key_inj)
                                        |(p & Hp & ->%key_inj)]]]; auto.
    + intros [Hs|[Ho|[Hf|Hp]]]; eauto 6.
Qed.

(** X2: what [draw] reads back from an obstacle key is the cell the key
    was made from: splitting [key v] at the comma and converting both
    parts gives the coordinates of [v] (for coordinates a double holds
    exactly). *)
Theorem obstacle_key_round_trip (v : Vec)
    (Hx : Z.abs (x v) ≤ 2 ^ 53) (Hy : Z.abs (y v) ≤ 2 ^ 53) :
  obstacle_xy (key v) = Some v.
Proof.
  unfold obstacle_xy. rewrite split_comma_key.
  rewrite !StringToNumber_toString by done. by destruct v.
Qed.

Lemma obstacle_key_round_trip_witness :
  obstacle_xy (key (mkVec 27 16)) = Some (mkVec 27 16)
  ∧ obstacle_xy "27,16" = Some (mkVec 27 16).
Proof.
  split.
  - apply (obstacle_key_round_trip (mkVec 27 16)); simpl; lia.
  - reflexivity.
Defined.

(** ** More on random placement *)

Lemma draw_loop64_skips (occ : gset string) (rs : list float) (v : Vec)
    (rs' : list float) :
  draw_loop64 occ rs = Some (v, rs') →
  (key v ∉ occ)
  ∧ ∃ skipped rx ry,
      rs = skipped ++ rx :: ry :: rs' ∧ v = cell_of64 rx ry
      ∧ Nat.Even (length skipped)
      ∧ ∀ i a b, skipped !! (2 * i)%nat = Some a →
                 skipped !! (2 * i + 1)%nat = Some b →
                 key (cell_of64 a b) ∈ occ.
Proof.
  revert v rs'. induction rs as [| |rx ry rs IH] using list_pair_ind;
    intros v rs' H; simpl in H; try discriminate.
  case_bool_decide as Hocc.
  - destruct (IH v rs' H) as (Hfree & sk & rx' & ry' & -> & -> & [n Hn] & Hsk).
    split; [exact Hfree|].
    exists (rx :: ry :: sk), rx', ry'. split; [done|]. split; [done|].
    split; [exists (S n); simpl; lia|].
    intros [|i] a b Ha Hb.
    + simpl in Ha, Hb. injection Ha as <-. injection Hb as <-. done.
    + replace (2 * S i)%nat with (S (S (2 * i))) in Ha by lia.
      replace (2 * S i + 1)%nat with (S (S (2 * i + 1))) in Hb by lia.
      exact (Hsk i a b Ha Hb).
  - injection H as <- <-. split; [exact Hocc|].
    exists [], rx, ry. split; [done|]. split; [done|].
    split; [by exists 0%nat|]. intros i a b Ha. by rewrite lookup_nil in Ha.
Qed.

(** X3: when [randomEmptyCell] returns, on doubles that [Math.random()]
    can give, the cell is not occupied and the values it has read form an
    even-length prefix of the random values: a run of pairs that all
    named occupied cells, then the pair that names the returned cell.
    The cell a pair names is computed as the source computes it, the
    products in binary64. *)
Theorem randomEmptyCell_returns_first_free (st : State) (rs : list float)
    (v : Vec) (rs' : list float)
    (Hunit : Forall (λ r, unit_float r = true) rs)
    (Hret : randomEmptyCell64 st rs = Some (v, rs')) :
  (key v ∉ occupied st)
  ∧ ∃ skipped rx ry,
      rs = skipped ++ rx :: ry :: rs' ∧ v = cell_of64 rx ry
      ∧ Nat.Even (length skipped)
      ∧ ∀ i a b, skipped !! (2 * i)%nat = Some a →
                 skipped !! (2 * i + 1)%nat = Some b →
                 key (cell_of64 a b) ∈ occupied st.
Proof. by apply draw_loop64_skips. Qed.

(** The head cell (21,5) is named first and rejected; the double nearest
    to 0.7, taken twice, names (19,14): its product with 20 rounds to
    14. *)
Lemma randomEmptyCell_returns_first_free_witness :
  randomEmptyCell64 before_poison_46
    [0.75; 0.25; 0x1.6666666666666p-1; 0x1.6666666666666p-1; 0.5]%float
  = Some (mkVec 19 14, [0.5%float])
  ∧ cell_of64 0.75 0.25 = mkVec 21 5
  ∧ (key (mkVec 19 14) ∉ occupied before_poison_46).
Proof.
  assert (randomEmptyCell64 before_poison_46
            [0.75; 0.25; 0x1.6666666666666p-1; 0x1.6666666666666p-1;
             0.5]%float
          = Some (mkVec 19 14, [0.5%float])) as Hret
    by (vm_compute; reflexivity).
  split; [exact Hret|]. split; [vm_compute; reflexivity|].
  destruct (randomEmptyCell_returns_first_free before_poison_46
              [0.75; 0.25; 0x1.6666666666666p-1; 0x1.6666666666666p-1;
               0.5]%float (mkVec 19 14) [0.5%float]) as [Hfree _].
  - repeat (apply Forall_cons; split; [vm_compute; reflexivity|]).
    by apply Forall_nil.
  - exact Hret.
  - exact Hfree.
Defined.

(** Closes [unit_trace] goals on explicit traces. *)
Ltac unit_trace_solve :=
  unfold unit_trace;
  repeat (apply Forall_cons; split; [split; by vm_compute|]);
  by apply Forall_nil.

Lemma within_all_cells (v : Vec) : within v = true → v ∈ all_cells.
Proof.
  unfold within. rewrite !andb_true_iff, !Z.leb_le, !Z.ltb_lt.
  intros (((Hx0 & Hx1) & Hy0) & Hy1).
  apply list_elem_of_In, in_flat_map. exists (x v). split.
  - apply list_elem_of_In, elem_of_seqZ. lia.
  - apply in_map_iff. exists (y v). split; [by destruct v|].
    apply list_elem_of_In, elem_of_seqZ. lia.
Qed.

(** X4: on a board with no free cell [randomEmptyCell] does not return,
    whatever values [Math.random()] gives: the loop of lines 88-93 has no
    way out. *)
Theorem randomEmptyCell_full_grid_never_returns (st : State)
    (Hfull : ∀ v, within v = true → key v ∈ occupied st)
    (Hunit : unit_trace (rand st)) :
  randomEmptyCell st = None.
Proof.
  destruct (randomEmptyCell st) as [[v st']|] eqn:Hret; [|done].
  apply randomEmptyCell_inv in Hret as [Hoff _].
  pose proof (offers_free _ _ _ _ Hoff) as Hfree.
  apply (offers_unit _ _ _ _ Hunit) in Hoff as [Hin _].
  destruct (Hfree (Hfull v Hin)).
Qed.

Lemma randomEmptyCell_full_grid_never_returns_witness :
  randomEmptyCell (full_board [1 # 2; 1 # 2; 1 # 4; 3 # 4; 0; 9 # 10]%Q) = None.
Proof.
  apply randomEmptyCell_full_grid_never_returns.
  - intros v Hin. apply occupied_spec. left. exists v.
    split; [|done]. by apply within_all_cells.
  - unit_trace_solve.
Defined.

(** ** Starting a game *)

(** X5: [start] puts the game in one fixed configuration whatever was
    played before: four cells heading right, the border pattern, no
    poison, score 0, the starting interval, the full countdown, counter
    0.  It keeps the best score and its stored copy.  The food is free of
    the new body and of the border, and it is never put on the cell of
    the previous game's food or poison, which [randomEmptyCell] still
    sees. *)
Theorem start_resets_game (st st' : State) (Hstart : start st = Some st') :
  phase st' = Running
  ∧ snake st' = [mkVec 13 10; mkVec 12 10; mkVec 11 10; mkVec 10 10]
  ∧ dir st' = ArrowRight ∧ nextDir st' = ArrowRight
  ∧ obstacles st' = start_obstacles ∧ poison st' = None
  ∧ score st' = 0 ∧ scoreRef st' = 0
  ∧ tickMs st' = START_SPEED_MS ∧ timeLeft st' = TIME_LIMIT_S
  ∧ tickCount st' = 0
  ∧ best st' = best st ∧ storage st' = storage st
  ∧ ∃ f, food st' = Some f ∧ (f ∉ snake st') ∧ (key f ∉ start_obstacles)
         ∧ food st ≠ Some f ∧ poison st ≠ Some f.
Proof.
  unfold start in Hstart.
  destruct (randomEmptyCell _) as [[f st1]|] eqn:R; [|discriminate].
  injection Hstart as <-.
  apply randomEmptyCell_inv in R as [Hf ->].
  apply offers_free, not_occupied in Hf as (Hfb & Hfo & Hff & Hfp & _).
  repeat (split; [reflexivity|]). exists f. by repeat split.
Qed.

Lemma start_resets_game_witness :
  start (set_rand [7 # 28; 5 # 20; 14 # 28; 10 # 20]%Q after_poison_46)
  = Some (set_rand [] before_food)
  ∧ food (set_rand [] before_food) ≠ poison after_poison_46.
Proof.
  assert (start (set_rand [7 # 28; 5 # 20; 14 # 28; 10 # 20]%Q
                   after_poison_46)
          = Some (set_rand [] before_food))
    as Hstart by (vm_compute; reflexivity).
  split; [exact Hstart|].
  destruct (start_resets_game _ _ Hstart)
    as (_ & _ & _ & _ & _ & _ & _ & _ & _ & _ & _ & _ & _ & f & Hf & _ & _
        & _ & Hp).
  rewrite Hf. intros E. apply Hp. symmetry. exact E.
Defined.

(** ** Keyboard and touch input *)

Lemma DIRS_is_dir (k : string) (d : Vec) : DIRS k = Some d → is_dir d.
Proof.
  unfold DIRS, is_dir.
  repeat (destruct (String.eqb k _); [intros [= <-]; auto|]).
  discriminate.
Qed.

Lemma onKey_as_events (k : string) (st : State) :
  onKey k st = run (key_events k) st.
Proof.
  unfold onKey, key_events.
  destruct (DIRS k) as [d|]; simpl;
    destruct (String.eqb k " " || String.eqb k "Enter"); simpl;
    rewrite ?andb_true_r, ?andb_false_r;
    try destruct (is_running _); simpl;
    try reflexivity;
    by destruct (start _).
Qed.

Lemma key_events_genuine (k : string) : Forall genuine (key_events k).
Proof.
  unfold key_events. apply Forall_app. split.
  - destruct (DIRS k) as [d|] eqn:Hd; [|done].
    apply Forall_singleton. by eapply DIRS_is_dir.
  - by destruct (_ || _); [apply Forall_singleton|].
Qed.

Lemma onKey_running (k : string) (st : State) :
  phase st = Running →
  onKey k st = Some (match DIRS k with
                     | Some d => set_nextDir d st
                     | None => st
                     end).
Proof.
  intros Hrun. unfold onKey.
  assert (∀ s, phase s = Running → is_running s = true) as Hr
    by (intros s Hs; unfold is_running; by rewrite Hs).
  by destruct (DIRS k); rewrite Hr.
Qed.

(** X6: a key press in a running game changes nothing but the pending
    direction, and only when the key is one of the eight bound keys (whose
    values are the four directions); Space and Enter then do nothing.
    The pending direction is a buffer of one: of two direction keys
    pressed before a tick only the second counts, and the tick heads for
    it unless it is the reverse of the current heading.  When no game is
    running, Space and Enter start one.  A key press is the events of
    [key_events], which are genuine. *)
Theorem key_presses_are_buffered (k1 k2 : string) (st : State)
    (Hrun : phase st = Running) :
  onKey k1 st = Some (match DIRS k1 with
                      | Some d => set_nextDir d st
                      | None => st
                      end)
  ∧ (∀ d, DIRS k1 = Some d → is_dir d)
  ∧ (∀ d2, DIRS k2 = Some d2 →
       (onKey k1 st ≫= onKey k2) = onKey k2 st
       ∧ ∀ st', (onKey k1 st ≫= onKey k2) ≫= tick = Some st' →
                dir st' = validateTurn (dir st) d2)
  ∧ (∀ st0, is_running st0 = false →
            onKey " " st0 = start st0 ∧ onKey "Enter" st0 = start st0)
  ∧ onKey k1 st = run (key_events k1) st ∧ Forall genuine (key_events k1).
Proof.
  split; [by apply onKey_running|]. split; [apply DIRS_is_dir|].
  split; [|split; [|split; [apply onKey_as_events|apply key_events_genuine]]].
  - intros d2 Hd2.
    assert ((onKey k1 st ≫= onKey k2) = onKey k2 st) as Hsame.
    { rewrite (onKey_running k1 st Hrun). simpl.
      rewrite !onKey_running by by destruct (DIRS k1).
      rewrite Hd2. by destruct (DIRS k1). }
    split; [exact Hsame|]. intros st'. rewrite Hsame.
    rewrite (onKey_running k2 st Hrun), Hd2. simpl.
    intros Htick. by apply tick_dir in Htick.
  - intros st0 Hidle. unfold onKey. simpl. by rewrite Hidle.
Qed.

Lemma key_presses_are_buffered_witness :
  onKey "ArrowUp" before_food = Some (set_nextDir ArrowUp before_food)
  ∧ (onKey "ArrowUp" before_food ≫= onKey "q") = onKey "q" before_food
  ∧ ((onKey "ArrowUp" before_food ≫= onKey "q") ≫= tick)
    = Some (set_nextDir ArrowLeft after_food).
Proof.
  destruct (key_presses_are_buffered "ArrowUp" "q" before_food eq_refl)
    as (Hup & _ & Hboth & _).
  destruct (Hboth ArrowLeft eq_refl) as [Hsame _].
  split; [exact Hup|]. split; [exact Hsame|].
  rewrite Hsame. vm_compute. reflexivity.
Defined.

Lemma gtQ_true (a b : Q) : gtQ a b = true ↔ (b < a)%Q.
Proof.
  unfold gtQ. rewrite negb_true_iff, <- not_true_iff_false, Qle_bool_iff.
  split; [apply Qnot_le_lt|apply Qlt_not_le].
Qed.

Lemma gtQ_false (a b : Q) : gtQ a b = false ↔ (a <= b)%Q.
Proof. unfold gtQ. by rewrite negb_false_iff, Qle_bool_iff. Qed.

Lemma Qabs_cases (q : Q) :
  ((0 <= q)%Q ∧ (Qabs q == q)%Q) ∨ ((q <= 0)%Q ∧ (Qabs q == - q)%Q).
Proof.
  destruct (Qlt_le_dec q 0) as [H|H].
  - right. split; [lra|]. apply Qabs_neg. lra.
  - left. split; [done|]. by apply Qabs_pos.
Qed.

Ltac gtQ_cases :=
  repeat match goal with
         | |- context [gtQ ?a ?b] =>
             let E := fresh "E" in
             destruct (gtQ a b) eqn:E;
             [apply gtQ_true in E|apply gtQ_false in E]
         end.

Lemma swipe_opposite (dx dy : Q) :
  swipe (- dx) (- dy) = opposite <$> swipe dx dy.
Proof.
  unfold swipe.
  pose proof (Qabs_opp dx) as Hx. pose proof (Qabs_opp dy) as Hy.
  destruct (Qabs_cases dx) as [[? ?]|[? ?]], (Qabs_cases dy) as [[? ?]|[? ?]];
    generalize dependent (Qabs (- dx)); generalize dependent (Qabs (- dy));
    generalize dependent (Qabs dx); generalize dependent (Qabs dy);
    intros; gtQ_cases; simpl; try reflexivity; exfalso; lra.
Qed.

Lemma swipe_none (dx dy : Q) :
  swipe dx dy = None ↔ (Qabs dx <= 24)%Q ∧ (Qabs dy <= 24)%Q.
Proof.
  unfold swipe.
  destruct (gtQ (Qabs dx) 24) eqn:Ex, (gtQ (Qabs dy) 24) eqn:Ey; simpl;
    try apply gtQ_true in Ex; try apply gtQ_true in Ey;
    try apply gtQ_false in Ex; try apply gtQ_false in Ey;
    (split; [|intros [? ?]]); try done;
    try (destruct (gtQ _ _); discriminate); exfalso; lra.
Qed.

Lemma swipe_some (dx dy : Q) (d : Vec) :
  swipe dx dy = Some d →
  is_dir d
  ∧ ((24 < Qabs dx)%Q ∨ (24 < Qabs dy)%Q)
  ∧ (x d ≠ 0 → (Qabs dy < Qabs dx)%Q ∧ (inject_Z (x d) * dx == Qabs dx)%Q)
  ∧ (y d ≠ 0 → (Qabs dx <= Qabs dy)%Q ∧ (inject_Z (y d) * dy == Qabs dy)%Q).
Proof.
  unfold swipe, is_dir.
  destruct (Qabs_cases dx) as [[? ?]|[? ?]], (Qabs_cases dy) as [[? ?]|[? ?]];
    generalize dependent (Qabs dx); generalize dependent (Qabs dy);
    intros;
    match goal with H : _ = Some d |- _ => revert H end;
    gtQ_cases; simpl; intros Hs; try discriminate;
    injection Hs as <-;
    simpl; (split; [by auto 6|]);
    (split; [by (left; lra) || (right; lra)|]);
    (split; intros Hne; [|]); try done;
    change (inject_Z 1) with 1%Q; split; lra.
Qed.

(** X7: a drag counts as a swipe exactly when it is longer than 24 pixels
    along one axis.  The swipe is then one of the four directions: along
    the axis of the larger displacement (the vertical one on a tie) and
    in the sense of the drag.  The opposite drag gives the opposite
    direction.  The end of a touch changes at most the pending direction,
    and is the events of [touch_events], which are genuine. *)
Theorem swipe_follows_the_drag (dx dy : Q) :
  (swipe dx dy = None ↔ (Qabs dx <= 24)%Q ∧ (Qabs dy <= 24)%Q)
  ∧ (∀ d, swipe dx dy = Some d →
       is_dir d
       ∧ (x d ≠ 0 →
          (Qabs dy < Qabs dx)%Q ∧ (inject_Z (x d) * dx == Qabs dx)%Q)
       ∧ (y d ≠ 0 →
          (Qabs dx <= Qabs dy)%Q ∧ (inject_Z (y d) * dy == Qabs dy)%Q))
  ∧ swipe (- dx) (- dy) = opposite <$> swipe dx dy
  ∧ (∀ touch cx cy st,
       Some (onEnd touch cx cy st) = run (touch_events touch cx cy) st
       ∧ Forall genuine (touch_events touch cx cy)
       ∧ (onEnd touch cx cy st = st
          ∨ ∃ d, is_dir d ∧ onEnd touch cx cy st = set_nextDir d st)).
Proof.
  split; [apply swipe_none|]. split; [|split; [apply swipe_opposite|]].
  - intros d Hd. apply swipe_some in Hd as (H1 & _ & H2 & H3). done.
  - intros touch cx cy st. unfold onEnd, touch_events.
    destruct touch as [[sx sy]|]; [|by repeat split; [|left]].
    destruct (swipe (cx - sx) (cy - sy)) as [d|] eqn:Hd;
      [|by repeat split; [|left]].
    apply swipe_some in Hd as (Hdir & _).
    split; [done|]. split; [by apply Forall_singleton|].
    right. by exists d.
Qed.

(** A drag of 30 pixels to the right and 30 up is a tie: it counts as a
    swipe up. *)
Example swipe_tie_is_vertical :
  swipe 30 (-30) = Some ArrowUp ∧ swipe 31 (-30) = Some ArrowRight
  ∧ swipe 24 (-24) = None.
Proof. repeat split. Qed.

(** ** What every game keeps *)

Lemma spawn_obstacle_obstacles (st st' : State) :
  spawn_obstacle st = Some st' →
  obstacles st' = obstacles st
  ∨ Z.rem (tickCount st) OBSTACLE_INTERVAL_TICKS = 0
    ∧ Z.of_nat (size (obstacles st)) < MAX_OBSTACLES
    ∧ ∃ o rs, offers (occupied st) (rand st) o rs
              ∧ obstacles st' = {[ key o ]} ∪ obstacles st.
Proof.
  unfold spawn_obstacle.
  destruct (Z.rem _ _ =? 0) eqn:Hrem; simpl; [|intros [= <-]; by left].
  destruct (_ <? _) eqn:Hsz; [|intros [= <-]; by left].
  destruct (randomEmptyCell st) as [[o st1]|] eqn:R; [|discriminate].
  simpl. intros [= <-]. right.
  apply randomEmptyCell_inv in R as [Ho ->].
  split; [lia|]. split; [lia|]. by exists o, (rand st1).
Qed.

(** What a completed move does to the obstacles: nothing, or one free
    cell more, on a multiple of [OBSTACLE_INTERVAL_TICKS] and below the
    cap. *)
Lemma advance_obstacles (head : Vec) (st st' : State) :
  advance head st = Some st' →
  obstacles st' = obstacles st
  ∨ Z.rem (tickCount st + 1) OBSTACLE_INTERVAL_TICKS = 0
    ∧ Z.of_nat (size (obstacles st)) < MAX_OBSTACLES
    ∧ ∃ o, (key o ∉ obstacles st)
           ∧ (unit_trace (rand st) → within o = true)
           ∧ obstacles st' = {[ key o ]} ∪ obstacles st.
Proof.
  intros H.
  apply advance_inv in H as (g & st2 & st3 & Hfood & Hobs & Hpoison).
  assert (obstacles st2 = obstacles st
          ∧ (unit_trace (rand st) → unit_trace (rand st2))) as [H2 Hu2].
  { apply eat_food_inv in Hfood as [(_ & _ & ->)|(_ & _ & v & rs & Hv & ->)];
      (split; [reflexivity|]); [done|].
    intros Hu. by apply (offers_unit _ _ _ _ Hu) in Hv as [_ ?]. }
  assert (obstacles st' = obstacles st3) as H3.
  { apply spawn_poison_inv in Hpoison
      as [[_ ->]|(_ & r & rs & _ & [[_ ->]|(_ & p & rs' & _ & ->)])];
      reflexivity. }
  apply spawn_obstacle_obstacles in Hobs. rewrite H3.
  remember (if g then eat_poison head st2
            else set_snake (pop (head :: snake st)) (eat_poison head st2))
    as big eqn:Hbig.
  assert (obstacles big = obstacles st ∧ rand big = rand st2) as [Hsame Hrand].
  { destruct (eat_poison_frame head st2) as (Hr & Ho & _).
    rewrite Hbig. destruct g; simpl; by rewrite Ho, Hr. }
  destruct Hobs as [Ho|(Hrem & Hsz & o & rs & Hoff & Ho)].
  - left. rewrite Ho. exact Hsame.
  - right. change (obstacles (set_tickCount (tickCount st + 1) big))
      with (obstacles big) in *.
    change (rand (set_tickCount (tickCount st + 1) big))
      with (rand big) in *.
    rewrite Hsame in *. split; [exact Hrem|]. split; [exact Hsz|].
    exists o. split; [|split; [|exact Ho]].
    + intros Hin. apply offers_free in Hoff. apply Hoff.
      apply occupied_spec. right. left.
      change (obstacles (set_tickCount (tickCount st + 1) big))
        with (obstacles big). by rewrite Hsame.
    + intros Hu. apply Hu2 in Hu. rewrite <- Hrand in Hu.
      by apply (offers_unit _ _ _ _ Hu) in Hoff as [? _].
Qed.

Lemma advance_scoreRef (head : Vec) (st st' : State) :
  advance head st = Some st' → score st = scoreRef st →
  score st' = scoreRef st'.
Proof. intros H Hs. advance_cases H; lia. Qed.

Lemma advance_poison_early (head : Vec) (st st' : State) :
  advance head st = Some st' → poison st = None →
  Z.rem (tickCount st + 1) POISON_INTERVAL_TICKS ≠ 0 → poison st' = None.
Proof.
  intros H Hp Hrem. rewrite (advance_poison _ _ _ H Hrem), Hp.
  by destruct (at_cell _ _).
Qed.

Lemma chain_pop (l : list Vec) : chain l → chain (pop l).
Proof.
  unfold pop. induction l as [|a [|b l] IH]; try done.
  intros [Hab Hc]. specialize (IH Hc).
  destruct l as [|c l]; [done|]. split; [done|]. exact IH.
Qed.

Lemma adjacent_new_head (s0 d : Vec) : is_dir d → adjacent (new_head s0 d) s0.
Proof.
  unfold adjacent, new_head.
  intros [-> | [-> | [-> | ->]]]; simpl; lia.
Qed.

Lemma validateTurn_is_dir (cur next : Vec) :
  is_dir cur → is_dir next → is_dir (validateTurn cur next).
Proof. unfold validateTurn. by destruct (_ && _). Qed.

Lemma start_obstacles_size : size start_obstacles = 27%nat.
Proof. vm_compute. reflexivity. Qed.

Lemma sane_start (st st' : State) : start st = Some st' → sane st'.
Proof.
  unfold start.
  destruct (randomEmptyCell _) as [[f st1]|] eqn:R; [|discriminate].
  intros H. injection H as <-.
  apply randomEmptyCell_inv in R as [_ ->].
  constructor; cbn [dir nextDir tickMs phase timeLeft score scoreRef snake tickCount obstacles poison food set_phase set_tickCount set_timeLeft set_tickMs set_scoreRef set_score set_poison set_food set_rand start_layout set_obstacles set_nextDir set_dir set_snake length chain]; try done.
  - unfold is_dir, ArrowRight. auto.
  - unfold is_dir, ArrowRight. auto.
  - exists 0. simpl. lia.
  - by vm_compute; repeat (apply NoDup_cons; split; [set_solver|]);
      apply NoDup_nil_2.
  - intros s Hs. repeat (apply elem_of_cons in Hs as [->|Hs]); try reflexivity.
    exfalso. exact (proj1 (elem_of_nil s) Hs).
  - intros _ h n tl [= <- <- _]. reflexivity.
  - rewrite start_obstacles_size. lia.
Qed.

Lemma sane_time (st : State) : sane st → 0 ≤ timeLeft st ≤ TIME_LIMIT_S.
Proof.
  intros Hs. pose proof (sane_clock _ Hs) as Hcl.
  destruct (phase st) as [| |code r]; [done|lia|by destruct Hcl].
Qed.

Lemma sane_endGame_Hit (st : State) : sane st → sane (endGame Hit (turn st)).
Proof.
  intros Hs. pose proof (sane_time _ Hs) as Htime.
  destruct Hs
    as [Hd Hn Hsp Hcl Hsc Hlen Hpts Hch Hnd Hin Hnk Hcnt Hbd Hcap Heo Hep].
  constructor; simpl; try done.
  - by apply validateTurn_is_dir.
  - split; [exact Htime|]. split; [done|].
    exists (scoreRef st). split; [reflexivity|].
    destruct Hpts as (p & Hp & Hpsc). lia.
Qed.

Lemma sane_advance (st st' : State) (s0 : Vec) (tl : list Vec) :
  sane st → snake st = s0 :: tl →
  hits (new_head s0 (dir (turn st))) (turn st) = false →
  advance (new_head s0 (dir (turn st))) (turn st) = Some st' → sane st'.
Proof.
  intros Hs Hsnake Hhit Hadv.
  pose proof (validateTurn_is_dir _ _ (sane_dir _ Hs) (sane_nextDir _ Hs))
    as Hdir.
  change (dir (turn st)) with (validateTurn (dir st) (nextDir st)) in *.
  set (head := new_head s0 (validateTurn (dir st) (nextDir st))) in *.
  pose proof (advance_fields _ _ _ Hadv)
    as (Esnake & Escore & Ems & Ecount & Ephase & _ & Edir & Enext & Etime & _).
  pose proof (advance_obstacles _ _ _ Hadv) as Hobs.
  pose proof (advance_scoreRef _ _ _ Hadv (sane_score _ Hs)) as Href.
  apply hits_false in Hhit as (Hwithin & _ & Hfresh).
  change (snake (turn st)) with (snake st) in *.
  change (score (turn st)) with (score st) in *.
  change (tickMs (turn st)) with (tickMs st) in *.
  change (tickCount (turn st)) with (tickCount st) in *.
  change (obstacles (turn st)) with (obstacles st) in *.
  change (food (turn st)) with (food st) in *.
  change (poison (turn st)) with (poison st) in *.
  change (phase (turn st)) with (phase st) in *.
  change (nextDir (turn st)) with (nextDir st) in *.
  change (timeLeft (turn st)) with (timeLeft st) in *.
  assert (chain (head :: snake st)) as Hchain.
  { rewrite Hsnake. split; [by apply adjacent_new_head|].
    rewrite <- Hsnake. by destruct Hs. }
  assert (NoDup (head :: snake st)) as Hnodup.
  { apply NoDup_cons. split; [done|by destruct Hs]. }
  destruct Hs as [Hd Hn Hsp Hcl Hsc Hlen Hpts Hch Hnd Hin Hnk Hcnt Hbd Hcap Heo Hep]. constructor.
  - by rewrite Edir.
  - by rewrite Enext.
  - rewrite Ems. unfold MIN_SPEED_MS, START_SPEED_MS in *.
    destruct (at_cell (food st) head), (at_cell (poison st) head); simpl; lia.
  - rewrite Ephase, Etime.
    destruct (phase st) as [| |code r]; [done|done|].
    destruct Hcl as (Ht & Hr & sc & Hcode & Hsc').
    split; [done|]. split; [done|]. exists sc. split; [done|].
    rewrite Esnake. destruct (at_cell _ _); simpl length;
      rewrite ?length_pop_cons; lia.
  - exact Href.
  - rewrite Esnake. destruct (at_cell _ _); simpl; [lia|].
    rewrite length_pop_cons. lia.
  - destruct Hpts as (p & Hp & Hpsc). rewrite Escore, Esnake.
    exists (if at_cell (poison st) head then p + 1 else p).
    destruct (at_cell (food st) head), (at_cell (poison st) head);
      rewrite ?length_pop_cons; simpl length; lia.
  - rewrite Esnake. destruct (at_cell _ _); [done|]. by apply chain_pop.
  - rewrite Esnake. destruct (at_cell _ _); [done|].
    pose proof (pop_sublist (head :: snake st)) as Hsub.
    by eapply sublist_NoDup.
  - assert (∀ s, s ∈ head :: snake st → within s = true) as Hall.
    { intros s [->|Hs]%elem_of_cons; auto. }
    rewrite Esnake. destruct (at_cell _ _); [done|].
    intros s Hs. apply Hall. eapply elem_of_sublist; [exact Hs|].
    apply pop_sublist.
  - intros _ h n tl'. rewrite Esnake, Edir, Hsnake.
    destruct (at_cell _ _); [by intros [= <- <- _]|].
    rewrite Hsnake in Hlen. destruct tl as [|t tl2]; [simpl in Hlen; lia|].
    rewrite !pop_cons_cons. by intros [= <- <- _].
  - lia.
  - destruct Hobs as [->|(_ & _ & o & _ & _ & ->)]; [exact Hbd|].
    etrans; [exact Hbd|apply union_subseteq_r].
  - destruct Hobs as [->|(_ & Hsz & o & Hfree & _ & ->)]; [done|].
    rewrite size_union by (apply disjoint_singleton_l; exact Hfree).
    rewrite size_singleton.
    unfold MAX_OBSTACLES in Hsz. lia.
  - rewrite Ecount. intros Hlt.
    destruct Hobs as [->|(Hrem & _)].
    + apply Heo. lia.
    + unfold OBSTACLE_INTERVAL_TICKS in *.
      rewrite Z.rem_small in Hrem by lia. lia.
  - rewrite Ecount. intros Hlt.
    eapply advance_poison_early; [exact Hadv| |].
    + apply Hep. simpl. lia.
    + unfold POISON_INTERVAL_TICKS in *. simpl.
      rewrite Z.rem_small by lia. lia.
Qed.

(** [tick] does not read the phase: the invariant is kept also by the
    tick that runs after the countdown has ended the game. *)
Lemma sane_tick (st st' : State) : sane st → tick st = Some st' → sane st'.
Proof.
  intros Hs [->|(s0 & tl & Hsnake & Hhit & Hadv)]%tick_inv.
  - by apply sane_endGame_Hit.
  - by eapply sane_advance.
Qed.

Lemma sane_countdown (secs : Z) (st : State) :
  sane st → phase st = Running → 1 ≤ secs → sane (countdown secs st).
Proof.
  intros [Hd Hn Hsp Hcl Hsc Hlen Hpts Hch Hnd Hin Hnk Hcnt Hbd Hcap Heo Hep] Hrun Hsecs. rewrite Hrun in Hcl. unfold countdown.
  destruct (Z.max 0 (timeLeft st - secs) =? 0) eqn:E.
  - apply Z.eqb_eq in E. rewrite E. constructor; simpl; try done.
    split; [unfold TIME_LIMIT_S; lia|]. split; [done|].
    exists (scoreRef st). split; [reflexivity|].
    destruct Hpts as (p & Hp & Hpsc). lia.
  - apply Z.eqb_neq in E. constructor; simpl; try done.
    rewrite Hrun. lia.
Qed.

Lemma sane_fire (e : Event) (st st' : State) :
  sane st → genuine e → fire e st = Some st' → sane st'.
Proof.
  intros Hs He. unfold fire, is_running.
  destruct e as [|d|secs| |secs]; simpl in He.
  - destruct (phase st) eqn:Hph; try (intros [= <-]; exact Hs);
      apply sane_start.
  - intros [= <-]. by destruct Hs.
  - destruct (phase st) eqn:Hph; intros [= <-]; try exact Hs.
    by apply sane_countdown.
  - destruct (phase st) eqn:Hph; try (intros [= <-]; exact Hs).
    by apply sane_tick.
  - destruct (phase st) eqn:Hph; try (intros [= <-]; exact Hs).
    apply sane_tick. by apply sane_countdown.
Qed.

Lemma sane_run (es : list Event) (st st' : State) :
  sane st → Forall genuine es → run es st = Some st' → sane st'.
Proof.
  revert st. induction es as [|e es IH]; intros st Hs Hg; simpl.
  - by intros [= <-].
  - apply Forall_cons in Hg as [He Hg].
    destruct (fire e st) as [st1|] eqn:Hf; simpl; [|done].
    apply IH; [|exact Hg]. by eapply sane_fire.
Qed.

Lemma sane_game (es : list Event) (st0 st : State) :
  is_running st0 = false → Forall genuine es →
  run (EvStart :: es) st0 = Some st → sane st.
Proof.
  intros Hidle Hg. simpl. rewrite Hidle.
  destruct (start st0) as [st1|] eqn:Hstart; simpl; [|done].
  apply sane_run; [|exact Hg]. by eapply sane_start.
Qed.

Lemma start_obstacles_cells (k : string) :
  k ∈ start_obstacles → ∃ v, within v = true ∧ k = key v.
Proof.
  assert (start_obstacles
          = list_to_set
              (key <$> filter (λ v, key v ∈ start_obstacles) all_cells)) as E
    by (vm_compute; reflexivity).
  intros Hk. rewrite E in Hk.
  apply elem_of_list_to_set, list_elem_of_fmap in Hk as (v & -> & Hv).
  apply list_elem_of_filter in Hv as [_ Hv].
  exists v. split; [|done].
  unfold all_cells in Hv.
  apply list_elem_of_In, in_flat_map in Hv as (cx & Hcx & Hv).
  apply in_map_iff in Hv as (cy & <- & Hcy).
  apply list_elem_of_In, elem_of_seqZ in Hcx.
  apply list_elem_of_In, elem_of_seqZ in Hcy.
  unfold within, GRID_COLS, GRID_ROWS in *. simpl.
  rewrite !andb_true_iff, !Z.leb_le, !Z.ltb_lt. lia.
Qed.

Lemma obstacle_cells_tick (st st' : State) :
  unit_trace (rand st) → obstacle_cells st → tick st = Some st' →
  obstacle_cells st'.
Proof.
  intros Hu Hc [->|(s0 & tl & _ & _ & Hadv)]%tick_inv; [exact Hc|].
  apply advance_obstacles in Hadv
    as [Ho|(_ & _ & o & _ & Hin & Ho)]; unfold obstacle_cells; rewrite Ho.
  - exact Hc.
  - intros k [->%elem_of_singleton|Hk]%elem_of_union; [|by apply Hc].
    exists o. split; [by apply Hin|done].
Qed.

Lemma obstacle_cells_fire (e : Event) (st st' : State) :
  unit_trace (rand st) → obstacle_cells st → fire e st = Some st' →
  obstacle_cells st'.
Proof.
  intros Hu Hc. unfold fire, is_running.
  destruct e as [|d|secs| |secs].
  - destruct (phase st); try (intros [= <-]; exact Hc);
      unfold start;
      (destruct (randomEmptyCell _) as [[f st1]|] eqn:R; [|discriminate]);
      intros [= <-]; apply randomEmptyCell_inv in R as [_ ->];
      intros k Hk; by apply start_obstacles_cells.
  - intros [= <-]. exact Hc.
  - destruct (phase st); intros [= <-]; try exact Hc.
    unfold countdown. by destruct (_ =? 0).
  - destruct (phase st); try (intros [= <-]; exact Hc).
    by apply obstacle_cells_tick.
  - destruct (phase st); try (intros [= <-]; exact Hc).
    apply obstacle_cells_tick; unfold countdown; by destruct (_ =? 0).
Qed.

(** ** Runs of events *)

Lemma moves_genuine (ds : list Vec) : Forall is_dir ds → Forall genuine (moves ds).
Proof.
  unfold moves. induction 1 as [|d ds Hd _ IH]; simpl; [done|].
  apply Forall_cons. split; [exact Hd|]. by apply Forall_cons.
Qed.

Lemma path45_genuine : Forall genuine (moves path45).
Proof.
  apply moves_genuine. unfold path45. simpl.
  repeat (apply Forall_cons; split; [unfold is_dir; by auto|]).
  by apply Forall_nil.
Qed.

Lemma trace46_unit : unit_trace (rand (idle_state trace46)).
Proof. simpl. unfold trace46. unit_trace_solve. Qed.

Lemma grid_run (es : list Event) (st st' : State) :
  in_grid st → obstacle_cells st → run es st = Some st' →
  in_grid st' ∧ obstacle_cells st'.
Proof.
  revert st. induction es as [|e es IH]; intros st Hg Hc; simpl.
  - by intros [= <-].
  - destruct (fire e st) as [st1|] eqn:Hf; simpl; [|done].
    apply IH.
    + by eapply in_grid_fire.
    + eapply obstacle_cells_fire; [|exact Hc|exact Hf]. by destruct Hg.
Qed.

Lemma obstacle_cells_start (st st' : State) :
  start st = Some st' → obstacle_cells st'.
Proof.
  unfold start.
  destruct (randomEmptyCell _) as [[f st1]|] eqn:R; [|discriminate].
  intros [= <-]. apply randomEmptyCell_inv in R as [_ ->].
  intros k Hk. by apply start_obstacles_cells.
Qed.

Lemma grid_game (es : list Event) (st0 st : State) :
  is_running st0 = false → unit_trace (rand st0) →
  run (EvStart :: es) st0 = Some st → in_grid st ∧ obstacle_cells st.
Proof.
  intros Hidle Hu. simpl. rewrite Hidle.
  destruct (start st0) as [st1|] eqn:Hstart; simpl; [|done].
  apply grid_run; [by eapply in_grid_start|by eapply obstacle_cells_start].
Qed.

(** What a tick can do to the fields that the loop reads back. *)
Lemma tick_within_game (st st' : State) :
  MIN_SPEED_MS ≤ tickMs st → tick st = Some st' →
  tickMs st' ≤ tickMs st ∧ obstacles st ⊆ obstacles st'
  ∧ tickCount st ≤ tickCount st' ≤ tickCount st + 1
  ∧ timeLeft st' = timeLeft st.
Proof.
  intros Hsp [->|(s0 & tl & _ & _ & Hadv)]%tick_inv.
  - simpl. repeat split; try lia; done.
  - pose proof (advance_fields _ _ _ Hadv)
      as (_ & _ & Ems & Ecount & _ & _ & _ & _ & Etime & _).
    pose proof (advance_obstacles _ _ _ Hadv) as Hobs.
    simpl in Ems, Ecount, Etime, Hobs.
    split; [|split; [|split; [lia|done]]].
    + rewrite Ems. unfold MIN_SPEED_MS in *.
      destruct (at_cell _ _), (at_cell _ _); lia.
    + destruct Hobs as [->|(_ & _ & o & _ & _ & ->)]; [done|].
      apply union_subseteq_r.
Qed.

(** Within a game: what the events other than a start can do. *)
Lemma fire_within_game (e : Event) (st st' : State) :
  sane st → genuine e → e ≠ EvStart → fire e st = Some st' →
  tickMs st' ≤ tickMs st ∧ obstacles st ⊆ obstacles st'
  ∧ tickCount st ≤ tickCount st' ≤ tickCount st + 1
  ∧ timeLeft st' ≤ timeLeft st
  ∧ (is_running st = false → st' = set_nextDir (nextDir st') st).
Proof.
  intros Hs He Hne. unfold fire, is_running.
  pose proof (sane_speed _ Hs) as Hsp.
  pose proof (sane_time _ Hs) as Hleft.
  assert (∀ s : State, s = set_nextDir (nextDir s) s) as Heta
    by (by intros []).
  assert (∀ secs, 1 ≤ secs →
            tickMs (countdown secs st) = tickMs st
            ∧ obstacles (countdown secs st) = obstacles st
            ∧ tickCount (countdown secs st) = tickCount st
            ∧ timeLeft (countdown secs st) ≤ timeLeft st) as Hcount.
  { intros secs Hsecs. unfold countdown.
    destruct (_ =? 0); simpl; repeat split; lia. }
  destruct e as [|d|secs| |secs]; [done| | | |]; simpl in He.
  - intros [= <-]. simpl. repeat split; try lia; done.
  - destruct (phase st) eqn:Hph; intros [= <-];
      try (repeat split; try lia; try done; intros _; apply Heta).
    destruct (Hcount secs He) as (-> & -> & -> & ?).
    repeat split; try lia; done.
  - destruct (phase st) eqn:Hph;
      try (intros [= <-]; repeat split; try lia; try done; intros _;
           apply Heta).
    intros Htick.
    destruct (tick_within_game _ _ (proj1 Hsp) Htick) as (? & ? & ? & ?).
    repeat split; try lia; done.
  - destruct (phase st) eqn:Hph;
      try (intros [= <-]; repeat split; try lia; try done; intros _;
           apply Heta).
    intros Htick. destruct (Hcount secs He) as (E1 & E2 & E3 & ?).
    apply tick_within_game in Htick as (? & ? & ? & ?);
      rewrite ?E1, ?E2, ?E3 in *; [|exact (proj1 Hsp)].
    repeat split; try lia; done.
Qed.

Lemma run_within_game (es : list Event) (st st' : State) :
  sane st → Forall genuine es → EvStart ∉ es → run es st = Some st' →
  tickMs st' ≤ tickMs st ∧ obstacles st ⊆ obstacles st'
  ∧ tickCount st ≤ tickCount st' ≤ tickCount st + Z.of_nat (length es)
  ∧ timeLeft st' ≤ timeLeft st
  ∧ (is_running st = false → st' = set_nextDir (nextDir st') st).
Proof.
  revert st. induction es as [|e es IH]; intros st Hs Hg Hno; simpl run.
  - intros [= <-]. repeat split; try done; try (simpl; lia).
    intros _. by destruct st.
  - apply Forall_cons in Hg as [He Hg].
    apply not_elem_of_cons in Hno as [Hne Hno].
    destruct (fire e st) as [st1|] eqn:Hf; simpl; [|done].
    intros Hrun.
    pose proof (fire_within_game _ _ _ Hs He (not_eq_sym Hne) Hf)
      as (H1 & H2 & H3 & H4 & H5).
    pose proof (sane_fire _ _ _ Hs He Hf) as Hs1.
    destruct (IH st1 Hs1 Hg Hno Hrun) as (K1 & K2 & K3 & K4 & K5).
    split; [lia|]. split; [by etrans|]. split; [simpl length; lia|].
    split; [lia|].
    intros Hidle. specialize (H5 Hidle).
    assert (is_running st1 = false) as Hidle1
      by (rewrite H5; exact Hidle).
    rewrite (K5 Hidle1). rewrite H5. reflexivity.
Qed.

(** ** The countdown *)

Lemma countdown_cases (secs : Z) (st : State) :
  (secs < timeLeft st →
   countdown secs st = set_timeLeft (timeLeft st - secs) st)
  ∧ (timeLeft st ≤ secs →
     countdown secs st = set_timeLeft 0 (endGame Timeout st)).
Proof.
  unfold countdown. split; intros H.
  - rewrite Z.max_r by lia.
    destruct (_ =? 0) eqn:E; [apply Z.eqb_eq in E; lia|done].
  - rewrite Z.max_l by lia. done.
Qed.

Lemma run_seconds_over (l : list Z) (st : State) :
  is_running st = false → run (EvSecond <$> l) st = Some st.
Proof. intros H. induction l as [|a l IH]; simpl; [done|]. by rewrite H. Qed.

(** X8: the seconds of the countdown add up: frames that report
    [l = s1, s2, ...] whole seconds leave a running game as one frame
    that reports their sum does.  While the sum is below the time left
    only the clock moves; once it reaches the time left the game is over
    with reason timeout and the clock at 0, whatever the snake did. *)
Theorem seconds_add_up (st : State) (l : list Z)
    (Hrun : phase st = Running) (Hleft : 0 < timeLeft st)
    (Hsecs : Forall (λ s, 1 ≤ s) l) :
  run (EvSecond <$> l) st = Some (countdown (foldr Z.add 0 l) st)
  ∧ (foldr Z.add 0 l < timeLeft st →
     countdown (foldr Z.add 0 l) st
     = set_timeLeft (timeLeft st - foldr Z.add 0 l) st)
  ∧ (timeLeft st ≤ foldr Z.add 0 l →
     countdown (foldr Z.add 0 l) st = set_timeLeft 0 (endGame Timeout st)).
Proof.
  split; [|apply countdown_cases].
  revert st Hrun Hleft. induction Hsecs as [|a l Ha Hl IH]; intros st Hrun Hleft.
  - simpl. rewrite (proj1 (countdown_cases 0 st)) by lia.
    rewrite Z.sub_0_r. by destruct st.
  - assert (0 ≤ foldr Z.add 0 l) as Hsum.
    { clear IH. induction Hl as [|b l Hb _ IH]; simpl; lia. }
    simpl. unfold is_running. rewrite Hrun. simpl.
    destruct (Z_lt_le_dec a (timeLeft st)) as [Hlt|Hge].
    + rewrite (proj1 (countdown_cases a st) Hlt).
      rewrite IH; [|done|simpl; lia]. f_equal.
      unfold countdown. simpl.
      replace (timeLeft st - a - foldr Z.add 0 l)
        with (timeLeft st - (a + foldr Z.add 0 l)) by lia.
      by destruct (_ =? 0).
    + rewrite (proj2 (countdown_cases a st) Hge).
      rewrite run_seconds_over by done.
      by rewrite (proj2 (countdown_cases (a + foldr Z.add 0 l) st)) by lia.
Qed.

Lemma seconds_add_up_witness :
  run (EvSecond <$> [30; 30; 20]) before_food
  = Some (set_timeLeft 0 (endGame Timeout before_food))
  ∧ run (EvSecond <$> [30; 30]) before_food
    = Some (set_timeLeft 15 before_food).
Proof.
  split.
  - destruct (seconds_add_up before_food [30; 30; 20]) as (Hsum & _ & Hover).
    + reflexivity.
    + simpl. unfold TIME_LIMIT_S. lia.
    + repeat (apply Forall_cons; split; [lia|]). by apply Forall_nil.
    + rewrite Hsum, Hover; [reflexivity|]. simpl. unfold TIME_LIMIT_S. lia.
  - reflexivity.
Defined.



(** ** Games played from [start] *)

(** X10: the tick interval of a game stays between [MIN_SPEED_MS] and
    [START_SPEED_MS], and within a game it never grows: nothing slows the
    snake down again but a new start. *)
Theorem tick_interval_only_shrinks (es es' : list Event) (st0 st st' : State)
    (Hidle : is_running st0 = false)
    (Hgen : Forall genuine es) (Hgen' : Forall genuine es')
    (Hrun : run (EvStart :: es) st0 = Some st)
    (Hno : EvStart ∉ es') (Hrun' : run es' st = Some st') :
  MIN_SPEED_MS ≤ tickMs st' ≤ tickMs st ∧ tickMs st ≤ START_SPEED_MS.
Proof.
  pose proof (sane_game _ _ _ Hidle Hgen Hrun) as Hs.
  pose proof (sane_run _ _ _ Hs Hgen' Hrun') as Hs'.
  pose proof (run_within_game _ _ _ Hs Hgen' Hno Hrun') as (Hms & _).
  pose proof (sane_speed _ Hs). pose proof (sane_speed _ Hs'). lia.
Qed.

Lemma tick_interval_only_shrinks_witness :
  60 ≤ tickMs after_food ≤ tickMs before_food ∧ tickMs before_food ≤ 140.
Proof.
  apply (tick_interval_only_shrinks [] [EvTick]
           (idle_state [1 # 2; 1 # 2; 7 # 28; 5 # 20]%Q)).
  - reflexivity.
  - by apply Forall_nil.
  - by apply Forall_singleton.
  - vm_compute. reflexivity.
  - intros Hin. apply elem_of_cons in Hin as [Hin|Hin]; [done|].
    by apply elem_of_nil in Hin.
  - vm_compute. reflexivity.
Defined.

(** X11: the obstacles of a game always include the border pattern of
    [start], there are between 27 and [MAX_OBSTACLES] = 40 of them, and
    within a game none is ever removed. *)
Theorem obstacles_only_accumulate (es es' : list Event) (st0 st st' : State)
    (Hidle : is_running st0 = false)
    (Hgen : Forall genuine es) (Hgen' : Forall genuine es')
    (Hrun : run (EvStart :: es) st0 = Some st)
    (Hno : EvStart ∉ es') (Hrun' : run es' st = Some st') :
  start_obstacles ⊆ obstacles st ∧ obstacles st ⊆ obstacles st'
  ∧ (27 ≤ size (obstacles st) ≤ size (obstacles st'))%nat
  ∧ (size (obstacles st') ≤ 40)%nat.
Proof.
  pose proof (sane_game _ _ _ Hidle Hgen Hrun) as Hs.
  pose proof (sane_run _ _ _ Hs Hgen' Hrun') as Hs'.
  pose proof (run_within_game _ _ _ Hs Hgen' Hno Hrun') as (_ & Hsub & _).
  split; [by destruct Hs|]. split; [exact Hsub|]. split; [|by destruct Hs'].
  split; [|by apply subseteq_size].
  rewrite <- start_obstacles_size. apply subseteq_size. by destruct Hs.
Qed.

Lemma obstacles_only_accumulate_witness :
  start_obstacles ⊆ obstacles before_poison_46
  ∧ obstacles before_poison_46 ⊆ obstacles after_poison_46
  ∧ (27 ≤ size (obstacles before_poison_46)
        ≤ size (obstacles after_poison_46))%nat
  ∧ (size (obstacles after_poison_46) ≤ 40)%nat.
Proof.
  apply (obstacles_only_accumulate (moves path45) [EvTick]
           (idle_state trace46)).
  - reflexivity.
  - exact path45_genuine.
  - by apply Forall_singleton.
  - vm_compute. reflexivity.
  - intros Hin. apply elem_of_cons in Hin as [Hin|Hin]; [done|].
    by apply elem_of_nil in Hin.
  - vm_compute. reflexivity.
Defined.

(** X12: the first ticks of a game add nothing: the tick counter is never
    negative, until it reaches [OBSTACLE_INTERVAL_TICKS] = 18 the
    obstacles are the border pattern alone, and until it reaches
    [POISON_INTERVAL_TICKS] = 23 there is no poison. *)
Theorem opening_ticks_add_nothing (es : list Event) (st0 st : State)
    (Hidle : is_running st0 = false) (Hgen : Forall genuine es)
    (Hrun : run (EvStart :: es) st0 = Some st) :
  0 ≤ tickCount st
  ∧ (tickCount st < OBSTACLE_INTERVAL_TICKS → obstacles st = start_obstacles)
  ∧ (tickCount st < POISON_INTERVAL_TICKS → poison st = None).
Proof.
  pose proof (sane_game _ _ _ Hidle Hgen Hrun) as Hs. by destruct Hs.
Qed.

Lemma opening_ticks_add_nothing_witness :
  0 ≤ tickCount after_food
  ∧ (tickCount after_food < 18 → obstacles after_food = start_obstacles)
  ∧ (tickCount after_food < 23 → poison after_food = None).
Proof.
  apply (opening_ticks_add_nothing [EvTick]
           (idle_state [1 # 2; 1 # 2; 7 # 28; 5 # 20]%Q)).
  - reflexivity.
  - by apply Forall_singleton.
  - vm_compute. reflexivity.
Defined.

(** X13: after a start the phase is never idle again and the clock stays
    between 0 and [TIME_LIMIT_S].  A running game has time left and a
    game ended by timeout has the clock at 0, so the clock is at 0 only
    when the game is over.  A game ended by a hit may have the clock at 0
    as well: the frame in which the countdown ends the game still ticks,
    and that tick may hit. *)
Theorem phase_and_clock_agree (es : list Event) (st0 st : State)
    (Hidle : is_running st0 = false) (Hgen : Forall genuine es)
    (Hrun : run (EvStart :: es) st0 = Some st) :
  phase st ≠ Idle ∧ 0 ≤ timeLeft st ≤ TIME_LIMIT_S
  ∧ (phase st = Running → 0 < timeLeft st)
  ∧ (∀ code, phase st = GameOver code Timeout → timeLeft st = 0)
  ∧ (timeLeft st = 0 → ∃ code reason, phase st = GameOver code reason).
Proof.
  pose proof (sane_game _ _ _ Hidle Hgen Hrun) as Hs.
  pose proof (sane_time _ Hs) as Htime.
  pose proof (sane_clock _ Hs) as Hcl.
  destruct (phase st) as [| |code reason]; [done| |].
  - split; [done|]. split; [done|]. split; [lia|]. split; [done|]. lia.
  - split; [done|]. split; [done|]. split; [done|]. split.
    + intros code' [= _ Hr]. by apply Hcl.
    + intros _. by exists code, reason.
Qed.

Lemma phase_and_clock_agree_witness :
  run (EvStart :: replicate 14 EvTick ++ [EvSecondTick 80])
    (idle_state [1 # 8; 1 # 4]%Q)
  = Some hit_at_timeout
  ∧ phase hit_at_timeout = GameOver CODE_LOCKED Hit
  ∧ phase hit_at_timeout ≠ Idle ∧ 0 ≤ timeLeft hit_at_timeout ≤ TIME_LIMIT_S
  ∧ (phase hit_at_timeout = Running → 0 < timeLeft hit_at_timeout)
  ∧ (∀ code, phase hit_at_timeout = GameOver code Timeout →
             timeLeft hit_at_timeout = 0)
  ∧ (timeLeft hit_at_timeout = 0 →
     ∃ code reason, phase hit_at_timeout = GameOver code reason).
Proof.
  assert (run (EvStart :: replicate 14 EvTick ++ [EvSecondTick 80])
            (idle_state [1 # 8; 1 # 4]%Q)
          = Some hit_at_timeout) as Hrun by (vm_compute; reflexivity).
  split; [exact Hrun|]. split; [reflexivity|].
  apply (phase_and_clock_agree (replicate 14 EvTick ++ [EvSecondTick 80])
           (idle_state [1 # 8; 1 # 4]%Q)).
  - reflexivity.
  - apply Forall_app. split; [by apply Forall_replicate|].
    apply Forall_singleton. simpl. lia.
  - exact Hrun.
Defined.

(** X14: the score shown and the score [endGame] reads are the same
    number; it is 5 times the number of cells the snake has grown, minus
    a multiple of 7 that is not negative, and so at most 5 times the
    growth.  The code of a finished game is one of the two texts of
    [makeCode], and it is "4712" only when the snake has at least 24
    cells.  (The code is made from the score at the call of [endGame];
    the tick of the frame that timed out can still change the score
    afterwards.) *)
Theorem unlock_code_needs_a_long_snake (es : list Event) (st0 st : State)
    (Hidle : is_running st0 = false) (Hgen : Forall genuine es)
    (Hrun : run (EvStart :: es) st0 = Some st) :
  score st = scoreRef st
  ∧ (∃ p, 0 ≤ p
          ∧ score st + 7 * p = 5 * (Z.of_nat (length (snake st)) - 4))
  ∧ score st ≤ 5 * (Z.of_nat (length (snake st)) - 4)
  ∧ ∀ code reason, phase st = GameOver code reason →
      (code = "4712" ∨ code = CODE_LOCKED)
      ∧ (code = "4712" → (24 ≤ length (snake st))%nat).
Proof.
  pose proof (sane_game _ _ _ Hidle Hgen Hrun) as Hs.
  pose proof (sane_clock _ Hs) as Hcl.
  pose proof (sane_points _ Hs) as (p & Hp & Hsc).
  split; [by destruct Hs|]. split; [exists p; lia|]. split; [lia|].
  intros code reason Hph. rewrite Hph in Hcl.
  destruct Hcl as (_ & _ & s & -> & Hle). unfold makeCode.
  destruct (100 <=? s) eqn:E.
  - apply Z.leb_le in E. split; [by left|]. intros _. lia.
  - split; [by right|]. done.
Qed.

Lemma unlock_code_needs_a_long_snake_witness :
  score timed_out_with_food = scoreRef timed_out_with_food
  ∧ (∃ p, 0 ≤ p
          ∧ score timed_out_with_food + 7 * p
            = 5 * (Z.of_nat (length (snake timed_out_with_food)) - 4))
  ∧ score timed_out_with_food
    ≤ 5 * (Z.of_nat (length (snake timed_out_with_food)) - 4)
  ∧ ∀ code reason, phase timed_out_with_food = GameOver code reason →
      (code = "4712" ∨ code = CODE_LOCKED)
      ∧ (code = "4712" → (24 ≤ length (snake timed_out_with_food))%nat).
Proof.
  apply (unlock_code_needs_a_long_snake [EvSecondTick 80]
           (idle_state [1 # 2; 1 # 2; 7 # 28; 5 # 20]%Q)).
  - reflexivity.
  - apply Forall_singleton. simpl. lia.
  - vm_compute. reflexivity.
Defined.

(** X15: the snake of a game is a path in the grid: at least four cells,
    each one next to the following one, no cell twice, every cell inside
    the 28 x 20 grid; and both the direction and the pending direction
    are one of the four directions. *)
Theorem snake_is_a_path_in_the_grid (es : list Event) (st0 st : State)
    (Hidle : is_running st0 = false) (Hgen : Forall genuine es)
    (Hrun : run (EvStart :: es) st0 = Some st) :
  (4 ≤ length (snake st))%nat ∧ chain (snake st) ∧ NoDup (snake st)
  ∧ (∀ s, s ∈ snake st → within s = true)
  ∧ is_dir (dir st) ∧ is_dir (nextDir st).
Proof.
  pose proof (sane_game _ _ _ Hidle Hgen Hrun) as Hs. by destruct Hs.
Qed.

Lemma snake_is_a_path_in_the_grid_witness :
  (4 ≤ length (snake before_poison_46))%nat
  ∧ chain (snake before_poison_46) ∧ NoDup (snake before_poison_46)
  ∧ (∀ s, s ∈ snake before_poison_46 → within s = true)
  ∧ is_dir (dir before_poison_46) ∧ is_dir (nextDir before_poison_46).
Proof.
  apply (snake_is_a_path_in_the_grid (moves path45) (idle_state trace46)).
  - reflexivity.
  - exact path45_genuine.
  - vm_compute. reflexivity.
Defined.

(** X16: in a running game the head is the neck moved by the direction
    in force, and the next tick does not move the head back onto the
    neck, whatever keys were pressed since the last tick. *)
Theorem tick_never_turns_back (es : list Event) (st0 st : State)
    (Hidle : is_running st0 = false) (Hgen : Forall genuine es)
    (Hrun : run (EvStart :: es) st0 = Some st)
    (Hrunning : phase st = Running) :
  ∃ h n tl,
    snake st = h :: n :: tl ∧ h = new_head n (dir st)
    ∧ new_head h (validateTurn (dir st) (nextDir st)) ≠ n.
Proof.
  pose proof (sane_game _ _ _ Hidle Hgen Hrun) as Hs.
  pose proof (sane_length _ Hs) as Hlen.
  destruct (snake st) as [|h [|n tl]] eqn:Hsnake;
    [simpl in Hlen; lia|simpl in Hlen; lia|].
  exists h, n, tl. split; [done|].
  pose proof (sane_neck _ Hs Hrunning h n tl Hsnake) as Hneck.
  split; [exact Hneck|].
  pose proof (sane_dir _ Hs) as Hd.
  rewrite Hneck. unfold validateTurn, new_head.
  destruct (_ && _) eqn:E; simpl; intros Heq.
  - destruct Hd as [Hd | [Hd | [Hd | Hd]]]; rewrite Hd in Heq; destruct n;
      simpl in Heq; injection Heq; lia.
  - apply andb_false_iff in E.
    destruct n as [nx ny]. simpl in Heq. injection Heq as Hx Hy.
    destruct E as [E|E]; apply Z.eqb_neq in E; lia.
Qed.

Lemma tick_never_turns_back_witness :
  ∃ h n tl,
    snake (set_nextDir ArrowLeft before_poison_46) = h :: n :: tl
    ∧ h = new_head n (dir (set_nextDir ArrowLeft before_poison_46))
    ∧ new_head h (validateTurn (dir (set_nextDir ArrowLeft before_poison_46))
                    (nextDir (set_nextDir ArrowLeft before_poison_46)))
      ≠ n.
Proof.
  apply (tick_never_turns_back (moves path45 ++ [EvKey ArrowLeft])
           (idle_state trace46)).
  - reflexivity.
  - apply Forall_app. split; [exact path45_genuine|].
    apply Forall_singleton. simpl. unfold is_dir. auto.
  - vm_compute. reflexivity.
  - reflexivity.
Defined.

(** X17: what [draw] paints: on values of [Math.random()], every obstacle
    key of a game reads back (line 265) as a cell of the grid, the cell
    the key was made from, and that cell is not a cell of the snake, the
    food or the poison; the food and the poison are cells of the grid
    too. *)
Theorem obstacles_are_drawn_on_free_cells (es : list Event) (st0 st : State)
    (Hidle : is_running st0 = false) (Hunit : unit_trace (rand st0))
    (Hrun : run (EvStart :: es) st0 = Some st) :
  (∀ k, k ∈ obstacles st →
     ∃ v, obstacle_xy k = Some v ∧ key v = k ∧ within v = true
          ∧ (v ∉ snake st) ∧ food st ≠ Some v ∧ poison st ≠ Some v)
  ∧ (∀ f, food st = Some f → within f = true)
  ∧ (∀ p, poison st = Some p → within p = true).
Proof.
  pose proof (grid_game _ _ _ Hidle Hunit Hrun) as [Hg Hc].
  pose proof (run_after_start_placed _ _ _ Hidle Hrun) as Hpl.
  split; [|by destruct Hg].
  intros k Hk. destruct (Hc k Hk) as (v & Hv & ->).
  exists v. split; [|split; [done|split; [done|]]].
  - unfold within in Hv.
    rewrite !andb_true_iff, !Z.leb_le, !Z.ltb_lt in Hv.
    unfold GRID_COLS, GRID_ROWS in Hv.
    unfold obstacle_xy. rewrite split_comma_key.
    rewrite !StringToNumber_toString by lia. by destruct v.
  - split; [|split].
    + intros Hin. by eapply (placed_body_obstacles _ Hpl).
    + intros Hf. by eapply (placed_food_obstacles _ Hpl).
    + intros Hp. by eapply (placed_poison_obstacles _ Hpl).
Qed.

Lemma obstacles_are_drawn_on_free_cells_witness :
  (∀ k, k ∈ obstacles before_poison_46 →
     ∃ v, obstacle_xy k = Some v ∧ key v = k ∧ within v = true
          ∧ (v ∉ snake before_poison_46) ∧ food before_poison_46 ≠ Some v
          ∧ poison before_poison_46 ≠ Some v)
  ∧ (∀ f, food before_poison_46 = Some f → within f = true)
  ∧ (∀ p, poison before_poison_46 = Some p → within p = true).
Proof.
  apply (obstacles_are_drawn_on_free_cells (moves path45)
           (idle_state trace46)).
  - reflexivity.
  - exact trace46_unit.
  - vm_compute. reflexivity.
Defined.

(** ** The stored best score *)

(** X18: what [endGame] writes to the storage is what the initializer of
    [best] reads back on the next load: the stored text converts to the
    best score of the game that just ended, for every best score and
    final score a double holds exactly, and for a best score that is NaN
    as well. *)
Theorem best_score_survives_reload (reason : Reason) (st : State)
    (Hbest : ∀ b, best st = JInt b → Z.abs b ≤ 2 ^ 53)
    (Hscore : Z.abs (scoreRef st) ≤ 2 ^ 53) :
  storage (endGame reason st) = Some (String_of (best (endGame reason st)))
  ∧ best_init (storage (endGame reason st)) = Some (best (endGame reason st)).
Proof.
  split; [reflexivity|]. simpl.
  destruct (best st) as [b|] eqn:Hb; simpl; [|reflexivity].
  specialize (Hbest b eq_refl).
  pose proof (Z_toString_nonempty (b `max` scoreRef st)) as Hne.
  unfold best_init, or_zero.
  destruct (Z_toString _) as [|a t] eqn:Hs; [done|].
  simpl. rewrite <- Hs. apply StringToNumber_toString. lia.
Qed.

Lemma best_score_survives_reload_witness :
  storage (endGame Hit after_food) = Some "5"
  ∧ best_init (storage (endGame Hit after_food)) = Some (JInt 5).
Proof.
  destruct (best_score_survives_reload Hit after_food) as [Hst Hinit].
  - intros b [= <-]. simpl. lia.
  - simpl. lia.
  - split; [exact Hst|exact Hinit].
Defined.

(** X19: a best score that is NaN never heals: no start, frame or key
    press makes it a number again, every game that ends writes the text
    NaN to the storage, and that text loads as NaN. *)
Theorem corrupt_best_never_heals (es : list Event) (st st' : State)
    (Hnan : best st = JNaN) (Hrun : run es st = Some st') :
  best st' = JNaN
  ∧ (storage st' = storage st ∨ storage st' = Some "NaN")
  ∧ best_init (Some "NaN") = Some JNaN.
Proof.
  split; [|split; [|reflexivity]].
  - revert st Hnan Hrun. induction es as [|e es IH]; intros st Hnan; simpl.
    + by intros [= <-].
    + destruct (fire e st) as [st1|] eqn:Hf; simpl; [|done].
      apply IH. apply fire_best in Hf as [[-> _]|[-> _]]; [done|].
      by rewrite Hnan.
  - revert st Hnan Hrun. induction es as [|e es IH]; intros st Hnan; simpl.
    + intros [= <-]. by left.
    + destruct (fire e st) as [st1|] eqn:Hf; simpl; [|done].
      intros Hrun.
      assert (best st1 = JNaN
              ∧ (storage st1 = storage st ∨ storage st1 = Some "NaN"))
        as [Hnan1 Hst1].
      { destruct e as [|d|secs| |secs]; simpl in Hf.
        - destruct (is_running st); [injection Hf as <-; by split; [|left]|].
          split; [by rewrite (start_best _ _ Hf)|left].
          unfold start in Hf.
          destruct (randomEmptyCell _) as [[f s1]|] eqn:R; [|discriminate].
          injection Hf as <-. by apply randomEmptyCell_inv in R as [_ ->].
        - injection Hf as <-. by split; [|left].
        - destruct (is_running st); injection Hf as <-; [|by split; [|left]].
          unfold countdown. destruct (_ =? 0); [|by split; [|left]].
          destruct (endGame_NaN Timeout st Hnan) as [? ?]. by split; [|right].
        - destruct (is_running st); [|injection Hf as <-; by split; [|left]].
          apply tick_inv in Hf as [->|(s0 & tl & _ & _ & Hadv)].
          + destruct (endGame_NaN Hit (turn st) Hnan) as [? ?].
            by split; [|right].
          + apply advance_fields in Hadv
              as (_ & _ & _ & _ & _ & -> & _ & _ & _ & ->).
            by split; [|left].
        - destruct (is_running st); [|injection Hf as <-; by split; [|left]].
          assert (best (countdown secs st) = JNaN
                  ∧ (storage (countdown secs st) = storage st
                     ∨ storage (countdown secs st) = Some "NaN"))
            as [Hn1 Hs1].
          { unfold countdown. destruct (_ =? 0); [|by split; [|left]].
            destruct (endGame_NaN Timeout st Hnan) as [? ?].
            by split; [|right]. }
          apply tick_inv in Hf as [->|(s0 & tl & _ & _ & Hadv)].
          + destruct (endGame_NaN Hit (turn (countdown secs st)) Hn1)
              as [? ?].
            by split; [|right].
          + apply advance_fields in Hadv
              as (_ & _ & _ & _ & _ & -> & _ & _ & _ & ->).
            by split. }
      destruct (IH st1 Hnan1 Hrun) as [-> | ->]; [exact Hst1|by right].
Qed.

Lemma corrupt_best_never_heals_witness :
  best (endGame Hit (turn (set_best JNaN at_wall))) = JNaN
  ∧ (storage (endGame Hit (turn (set_best JNaN at_wall)))
     = storage (set_best JNaN at_wall)
     ∨ storage (endGame Hit (turn (set_best JNaN at_wall))) = Some "NaN")
  ∧ best_init (Some "NaN") = Some JNaN.
Proof.
  apply (corrupt_best_never_heals [EvTick] (set_best JNaN at_wall)).
  - reflexivity.
  - vm_compute. reflexivity.
Defined.

(** ** The lock puzzle *)

Lemma pin_color_green (pos : Z) (target : option Z) :
  pin_color pos target = "bg-green-500"
  ↔ ∃ t, target = Some t ∧ Z.abs (pos - t) ≤ TOLERANCE.
Proof.
  unfold pin_color. destruct target as [t|].
  - destruct (Z.abs (pos - t) <=? TOLERANCE) eqn:E.
    + apply Z.leb_le in E. split; [intros _; by exists t|done].
    + apply Z.leb_gt in E. split.
      * by destruct (_ <=? 10).
      * intros (t' & [= <-] & Ht). lia.
  - split; [done|]. by intros (t & [=] & _).
Qed.

(** X20: the lock opens exactly when every pin is drawn green: the test
    of the effect is true if and only if the colour computed for each
    slider at lines 78-85 is the green one. *)
Theorem lock_opens_iff_all_pins_green (cur tgt : list Z) :
  allCorrect cur tgt = true
  ↔ ∀ i pos, cur !! i = Some pos →
             pin_color pos (tgt !! i) = "bg-green-500".
Proof.
  rewrite allCorrect_true. split; intros H i pos Hi.
  - apply pin_color_green. by apply H.
  - apply pin_color_green. by apply H.
Qed.

Lemma lock_run_app (es1 es2 : list LockEvent) (l : Lock) :
  lock_run (es1 ++ es2) l = lock_run es2 (lock_run es1 l).
Proof. unfold lock_run. apply foldl_app. Qed.

Lemma lock_fire_frame (e : LockEvent) (l : Lock) :
  targetPositions (lock_fire e l) = targetPositions l
  ∧ length (currentPositions (lock_fire e l)) = length (currentPositions l)
  ∧ (unlocked l = true → unlocked (lock_fire e l) = true).
Proof.
  destruct e as [i v|]; simpl.
  - by rewrite length_insert.
  - unfold unlock_effect. by destruct (_ && _).
Qed.

Lemma lock_run_frame (es : list LockEvent) (l : Lock) :
  targetPositions (lock_run es l) = targetPositions l
  ∧ length (currentPositions (lock_run es l)) = length (currentPositions l)
  ∧ (unlocked l = true → unlocked (lock_run es l) = true).
Proof.
  induction es as [|e es IH] using rev_ind; [done|].
  rewrite lock_run_app. simpl.
  destruct IH as (Ht & Hlen & Hsticky).
  destruct (lock_fire_frame e (lock_run es l)) as (Ft & Flen & Fsticky).
  split; [by rewrite Ft|]. split; [by rewrite Flen|]. by auto.
Qed.

(** X21: nothing but [resetGame] changes the targets or locks the lock
    again, and the lock does not open by itself: along any sequence of
    slider moves and runs of the effect the targets and the number of
    sliders stay what they were, an open lock stays open, and a lock that
    was closed and is open at the end had, at a run of the effect on the
    way, all its sliders within the tolerance of their targets. *)
Theorem lock_opens_only_when_solved (es : list LockEvent) (l : Lock) :
  targetPositions (lock_run es l) = targetPositions l
  ∧ length (currentPositions (lock_run es l)) = length (currentPositions l)
  ∧ (unlocked l = true → unlocked (lock_run es l) = true)
  ∧ (unlocked l = false → unlocked (lock_run es l) = true →
     ∃ es1 es2, es = es1 ++ Effect :: es2
       ∧ allCorrect (currentPositions (lock_run es1 l)) (targetPositions l)
         = true).
Proof.
  destruct (lock_run_frame es l) as (Ht & Hlen & Hsticky).
  split; [done|]. split; [done|]. split; [done|]. clear Ht Hlen Hsticky.
  induction es as [|e es IH] using rev_ind.
  - simpl. by intros ->.
  - rewrite lock_run_app. simpl. intros Hclosed Hopen.
    destruct (unlocked (lock_run es l)) eqn:Hmid.
    + destruct (IH Hclosed eq_refl) as (es1 & es2 & -> & Hok).
      exists es1, (es2 ++ [e]). by rewrite <- app_assoc.
    + destruct e as [i v|]; simpl in Hopen; [by rewrite Hmid in Hopen|].
      exists es, []. split; [done|].
      destruct (lock_run_frame es l) as (<- & _).
      unfold unlock_effect in Hopen.
      destruct (allCorrect _ _); [done|]. simpl in Hopen.
      by rewrite Hmid in Hopen.
Qed.

Lemma lock_slides (t : list Z) (u : bool) (vs pre cur : list Z) :
  length cur = length vs →
  currentPositions
    (lock_run (imap (λ i v, Slide (length pre + i) v) vs)
       (mkLock t (pre ++ cur) u))
  = pre ++ vs.
Proof.
  revert pre cur. induction vs as [|v vs IH]; intros pre cur Hlen.
  - destruct cur; [done|discriminate].
  - destruct cur as [|c cur]; [discriminate|]. simpl in Hlen.
    simpl. unfold handleSliderChange. simpl.
    rewrite Nat.add_0_r.
    replace (<[length pre:=v]> (pre ++ c :: cur)) with ((pre ++ [v]) ++ cur).
    2:{ rewrite insert_app_r_alt by lia. rewrite Nat.sub_diag. simpl.
        by rewrite <- app_assoc. }
    erewrite imap_ext.
    + rewrite (IH (pre ++ [v]) cur) by lia. by rewrite <- app_assoc.
    + intros i x _. simpl. rewrite length_app. simpl. f_equal. lia.
Qed.

(** X22: moving every slider, in order, to a position within the
    tolerance of its target and letting the effect run opens the lock,
    from any positions the sliders were at. *)
Theorem sliding_every_pin_into_place_unlocks (l : Lock) (vs : list Z)
    (Hlen : length vs = length (currentPositions l))
    (Hok : allCorrect vs (targetPositions l) = true) :
  currentPositions (lock_run (imap Slide vs ++ [Effect]) l) = vs
  ∧ unlocked (lock_run (imap Slide vs ++ [Effect]) l) = true.
Proof.
  assert (currentPositions (lock_run (imap Slide vs) l) = vs) as Hcur.
  { pose proof (lock_slides (targetPositions l) (unlocked l) vs []
                  (currentPositions l) (eq_sym Hlen)) as H.
    simpl in H.
    assert (mkLock (targetPositions l) (currentPositions l) (unlocked l) = l)
      as El by (by destruct l).
    rewrite El in H. exact H. }
  destruct (lock_run_frame (imap Slide vs) l) as [Ht _].
  rewrite lock_run_app.
  remember (lock_run (imap Slide vs) l) as l1 eqn:El1.
  simpl. unfold unlock_effect. rewrite Hcur, Ht, Hok. simpl.
  destruct (unlocked l1) eqn:Hu; simpl; by rewrite ?Hcur.
Qed.

Lemma sliding_every_pin_into_place_unlocks_witness :
  currentPositions
    (lock_run (imap Slide [10; 20; 30; 40; 50; 60; 70; 99] ++ [Effect])
       (mkLock [12; 18; 30; 41; 49; 62; 68; 97] (replicate 8 0) false))
  = [10; 20; 30; 40; 50; 60; 70; 99]
  ∧ unlocked
      (lock_run (imap Slide [10; 20; 30; 40; 50; 60; 70; 99] ++ [Effect])
         (mkLock [12; 18; 30; 41; 49; 62; 68; 97] (replicate 8 0) false))
    = true.
Proof.
  apply (sliding_every_pin_into_place_unlocks
           (mkLock [12; 18; 30; 41; 49; 62; 68; 97] (replicate 8 0) false)
           [10; 20; 30; 40; 50; 60; 70; 99]).
  - reflexivity.
  - reflexivity.
Defined.

Lemma getRandomPositions_spec (count : nat) (rs : list float) :
  getRandomPositions count rs
  = if decide (count ≤ length rs)%nat
    then Some ((λ r, Math_floor (PrimFloat.mul r 100)) <$> take count rs,
               drop count rs)
    else None.
Proof.
  revert rs. induction count as [|n IH]; intros rs.
  - destruct (decide (0 ≤ length rs)%nat) as [_|Hn]; [|lia].
    simpl. by rewrite drop_0.
  - destruct rs as [|r rs].
    + destruct (decide (S n ≤ length (@nil float))%nat) as [Hn|_]; [|done].
      simpl in Hn. lia.
    + destruct (decide (S n ≤ length (r :: rs))%nat) as [Hm|Hm];
        simpl in Hm; simpl getRandomPositions; rewrite IH;
        destruct (decide (n ≤ length rs)%nat) as [Hn|Hn]; try lia; done.
Qed.

(** X23: on doubles that [Math.random()] can give, [resetGame] takes the
    next eight of them, in order, and returns none when fewer are left.
    The new lock is closed, its sliders are at 0 and its eight targets
    are the floors of the values times 100, the products in binary64; the
    effect that runs next opens it at once exactly when every new target
    is within [TOLERANCE] of 0. *)
Theorem reset_draws_fresh_targets (rs : list float) (l : Lock)
    (Hunit : Forall (λ r, unit_float r = true) rs) :
  (length rs < PIN_COUNT → resetGame rs l = None)%nat
  ∧ ((PIN_COUNT ≤ length rs)%nat →
     ∃ l', resetGame rs l = Some (l', drop PIN_COUNT rs)
       ∧ unlocked l' = false
       ∧ currentPositions l' = replicate PIN_COUNT 0
       ∧ targetPositions l'
         = (λ r, Math_floor (PrimFloat.mul r 100)) <$> take PIN_COUNT rs
       ∧ length (targetPositions l') = PIN_COUNT
       ∧ (unlocked (unlock_effect l') = true
          ↔ Forall (λ t, Z.abs t ≤ TOLERANCE) (targetPositions l'))).
Proof.
  unfold resetGame. rewrite getRandomPositions_spec. split; intros Hlen.
  - by rewrite decide_False by lia.
  - rewrite decide_True by lia.
    remember ((λ r, Math_floor (PrimFloat.mul r 100)) <$> take PIN_COUNT rs)
      as tgt eqn:Etgt.
    assert (length tgt = PIN_COUNT) as Htl.
    { rewrite Etgt, length_fmap, length_take. lia. }
    clear Etgt. exists (mkLock tgt (replicate PIN_COUNT 0) false).
    split; [reflexivity|].
    cbn [unlocked currentPositions targetPositions].
    split; [done|]. split; [done|]. split; [done|]. split; [done|].
    unfold unlock_effect. cbn [unlocked currentPositions targetPositions negb].
    rewrite andb_true_r.
    destruct (allCorrect (replicate PIN_COUNT 0) tgt) eqn:E;
      cbn [unlocked].
    + split; [intros _|done].
      pose proof (proj1 (allCorrect_true _ _) E) as E'.
      apply Forall_lookup. intros i t Hi.
      assert (i < PIN_COUNT)%nat as Hi8
        by (rewrite <- Htl; by eapply lookup_lt_Some).
      destruct (E' i 0) as (t' & Ht' & Habs).
      { by apply lookup_replicate. }
      rewrite Hi in Ht'. injection Ht' as <-. lia.
    + split; [done|]. intros Hsmall.
      apply not_true_iff_false in E. exfalso. apply E.
      apply (proj2 (allCorrect_true _ _)).
      intros i c [-> Hi]%lookup_replicate.
      rewrite <- Htl in Hi.
      destruct (lookup_lt_is_Some_2 tgt i Hi) as [t Ht].
      exists t. split; [done|].
      pose proof (proj1 (Forall_lookup _ _) Hsmall i t Ht) as H1.
      simpl in H1. lia.
Qed.

(** On the doubles nearest to 0.24 and 0.7 the targets are 24 and 70. *)
Lemma reset_draws_fresh_targets_witness :
  ∃ l', resetGame
          [0x1.eb851eb851eb8p-3; 0.5; 0; 0.015625; 0.25; 0.75;
           0x1.6666666666666p-1; 0.125; 0.625]%float
          (mkLock [50] [7] true)
        = Some (l', [0.625%float])
    ∧ targetPositions l' = [24; 50; 0; 1; 25; 75; 70; 12]
    ∧ unlocked l' = false
    ∧ unlocked (unlock_effect l') = false.
Proof.
  destruct (reset_draws_fresh_targets
              [0x1.eb851eb851eb8p-3; 0.5; 0; 0.015625; 0.25; 0.75;
               0x1.6666666666666p-1; 0.125; 0.625]%float
              (mkLock [50] [7] true)) as [_ H].
  - repeat (apply Forall_cons; split; [vm_compute; reflexivity|]).
    by apply Forall_nil.
  - destruct H as (l' & Hr & Hu & _ & Ht & _ & Hopen).
    + simpl. unfold PIN_COUNT. lia.
    + exists l'. split; [exact Hr|].
      assert (targetPositions l' = [24; 50; 0; 1; 25; 75; 70; 12]) as Ht'
        by (rewrite Ht; vm_compute; reflexivity).
      split; [exact Ht'|]. split; [exact Hu|].
      apply not_true_is_false. intros Hopened.
      apply Hopen in Hopened. rewrite Ht' in Hopened.
      apply Forall_cons in Hopened as [H24 _]. unfold TOLERANCE in H24.
      simpl in H24. lia.
Defined.

(** ** The progress bar *)

Lemma progressPct_closed (t : Z) :
  progressPct t = (200 * (TIME_LIMIT_S - t) + 75) / 150.
Proof.
  unfold progressPct, Math_round, TIME_LIMIT_S, Qdiv, Qmult, Qplus, Qinv,
    inject_Z, Qfloor.
  simpl. f_equal. lia.
Qed.

(** X24: the progress bar (line 355) shows a whole percentage between 0
    and 100 while the clock is between [TIME_LIMIT_S] and 0: it is 0 only
    at the full time, 100 only at 0, and it never goes back as the clock
    runs down. *)
Theorem progress_bar_follows_the_clock (t : Z)
    (Ht : 0 ≤ t ≤ TIME_LIMIT_S) :
  0 ≤ progressPct t ≤ 100
  ∧ (progressPct t = 0 ↔ t = TIME_LIMIT_S)
  ∧ (progressPct t = 100 ↔ t = 0)
  ∧ ∀ t', t ≤ t' → progressPct t' ≤ progressPct t.
Proof.
  rewrite progressPct_closed. unfold TIME_LIMIT_S in *.
  split; [|split; [|split]].
  - Z.div_mod_to_equations. lia.
  - Z.div_mod_to_equations. lia.
  - Z.div_mod_to_equations. lia.
  - intros t' Hle. rewrite progressPct_closed. unfold TIME_LIMIT_S.
    apply Z.div_le_mono; lia.
Qed.

Lemma progress_bar_follows_the_clock_witness :
  0 ≤ progressPct 37 ≤ 100
  ∧ (progressPct 37 = 0 ↔ 37 = TIME_LIMIT_S)
  ∧ (progressPct 37 = 100 ↔ 37 = 0)
  ∧ ∀ t', 37 ≤ t' → progressPct t' ≤ progressPct 37.
Proof.
  apply (progress_bar_follows_the_clock 37). unfold TIME_LIMIT_S. lia.
Defined.
